(** * Recursive tree copy-and-sort utility (task_01_tree_copy_sort.py)

    A shallow embedding of the copy tool: pure path functions
    ([get_extension_subdir], [is_inside]), the walker
    [collect_files_recursive], the renderer [display_tree] and the driver
    [main], run against a small POSIX file-system model.

    Conventions of the model
    - Python [str] is a byte string ([string]); [str.lower] acts on the
      ASCII letters only.
    - A [pathlib.Path] is an anchor (["/"] or [""] on POSIX) and the list of
      its components; [pathlib] is the one of CPython 3.11.
    - The file system is a finite map from physical paths to inodes, with
      symbolic links, permission bits and the kernel's limit of 40 links per
      lookup.  A copy is atomic: it either writes the whole file or fails
      and leaves the file system as it was.
    - Uncaught Python exceptions are results ([inl e]); the interpreter's
      recursion limit is the bound on the depth of the recursive calls. *)

From Stdlib Require Import ZArith Ascii String Lia OrderedTypeEx.
From stdpp Require Import gmap strings list fin_maps sorting.

Open Scope string_scope.
Open Scope list_scope.

(** ** Python strings *)

Module PyStr.

(** [s.rfind(c)] for a one-character needle: index of the last
    occurrence, or [-1]. *)
Fixpoint rfind (c : ascii) (s : string) : Z :=
  match s with
  | EmptyString => (-1)%Z
  | String a s' =>
      let r := rfind c s' in
      if (0 <=? r)%Z then (r + 1)%Z
      else if Ascii.eqb a c then 0%Z else (-1)%Z
  end.

(** [s[i:]] for [0 <= i]. *)
Fixpoint drop (i : nat) (s : string) : string :=
  match i, s with
  | O, _ => s
  | S _, EmptyString => EmptyString
  | S j, String _ s' => drop j s'
  end.

Definition slice_from (i : Z) (s : string) : string := drop (Z.to_nat i) s.

Definition lower_ascii (a : ascii) : ascii :=
  let n := nat_of_ascii a in
  if (65 <=? n)%nat && (n <=? 90)%nat then ascii_of_nat (n + 32) else a.

(** [s.lower()] *)
Fixpoint lower (s : string) : string :=
  match s with
  | EmptyString => EmptyString
  | String a s' => String (lower_ascii a) (lower s')
  end.

(** [s.lstrip(c)] for a one-character set. *)
Fixpoint lstrip (c : ascii) (s : string) : string :=
  match s with
  | EmptyString => EmptyString
  | String a s' => if Ascii.eqb a c then lstrip c s' else s
  end.

(** Truth value of a string: non-empty. *)
Definition truthy (s : string) : bool :=
  match s with EmptyString => false | _ => true end.

(** [c not in s] *)
Fixpoint lacks (c : ascii) (s : string) : bool :=
  match s with
  | EmptyString => true
  | String a s' => negb (Ascii.eqb a c) && lacks c s'
  end.

(** [sep.join(l)] *)
Fixpoint join (sep : string) (l : list string) : string :=
  match l with
  | [] => ""
  | [x] => x
  | x :: l' => x +:+ sep +:+ join sep l'
  end.

End PyStr.

(** ** pathlib.PurePosixPath *)

Record Path := mkPath { anchor : string; parts : list string }.

#[global] Instance Path_eq_dec : EqDecision Path.
Proof. solve_decision. Defined.

(** Python exceptions that the program can meet. *)
Inductive exn :=
| PermissionError | FileNotFoundError | FileExistsError | NotADirectoryError
| IsADirectoryError | SameFileError | OtherOSError
| ValueError | ZeroDivisionError | RuntimeError | RecursionError.

#[global] Instance exn_eq_dec : EqDecision exn.
Proof. solve_decision. Defined.

(** [isinstance(e, OSError)] *)
Definition is_OSError (e : exn) : bool :=
  match e with
  | PermissionError | FileNotFoundError | FileExistsError | NotADirectoryError
  | IsADirectoryError | SameFileError | OtherOSError => true
  | _ => false
  end.

(** [isinstance(e, Exception)]: every class above derives from it. *)
Definition is_Exception (e : exn) : bool := true.

Module PurePath.

(** [p.name]: the final component, [''] when there is none. *)
Definition name (p : Path) : string := List.last (parts p) "".

(** [p.suffix] *)
Definition suffix (p : Path) : string :=
  let name := name p in
  let i := PyStr.rfind "." name in
  if (0 <? i)%Z && (i <? Z.of_nat (String.length name) - 1)%Z
  then PyStr.slice_from i name
  else "".

(** [p / s] for a single segment [s] (a directory entry or a bucket
    name: no separator inside); [''] and ['.'] add nothing. *)
Definition truediv (p : Path) (s : string) : Path :=
  if decide (s = "" ∨ s = ".") then p
  else mkPath (anchor p) (parts p ++ [s]).

(** [p.parent] *)
Definition parent (p : Path) : Path :=
  mkPath (anchor p) (removelast (parts p)).

(** [str(p)] *)
Definition str (p : Path) : string :=
  match anchor p, parts p with
  | "", [] => "."
  | a, l => a +:+ PyStr.join "/" l
  end.

(** Anchor and components as one list, the form [relative_to] compares. *)
Definition abs_parts (p : Path) : list string :=
  if PyStr.truthy (anchor p) then anchor p :: parts p else parts p.

Fixpoint starts_with (l pre : list string) : bool :=
  match pre, l with
  | [], _ => true
  | a :: pre', b :: l' => bool_decide (a = b) && starts_with l' pre'
  | _ :: _, [] => false
  end.

(** [self.relative_to(other)]: the remainder, or [ValueError]. *)
Definition relative_to (self other : Path) : exn + Path :=
  let n := length (abs_parts other) in
  if (if (n =? 0)%nat then PyStr.truthy (anchor self)
      else negb (starts_with (abs_parts self) (abs_parts other)))
  then inl ValueError
  else inr (mkPath "" (List.skipn n (abs_parts self))).

End PurePath.

Notation "p // s" := (PurePath.truediv p s) (at level 40, left associativity).

(** ** PathClassifier and ContainmentGuard *)

Definition get_extension_subdir (path : Path) : string :=
  let e := PyStr.lower (PurePath.suffix path) in
  if PyStr.truthy e then PyStr.lstrip "." e else "no_extension".

(** [try: child.relative_to(parent); return True
     except ValueError: return False] *)
Definition is_inside (child parent : Path) : exn + bool :=
  match PurePath.relative_to child parent with
  | inr _ => inr true
  | inl e => if decide (e = ValueError) then inr false else inl e
  end.

(** ** The file system *)

Module Posix.

Inductive errno := ENOENT | ENOTDIR | EACCES | ELOOP | EEXIST | EISDIR.

(** The [OSError] subclass CPython raises for an [errno]. *)
Definition OSError_of (e : errno) : exn :=
  match e with
  | ENOENT => FileNotFoundError
  | ENOTDIR => NotADirectoryError
  | EACCES => PermissionError
  | ELOOP => OtherOSError
  | EEXIST => FileExistsError
  | EISDIR => IsADirectoryError
  end.

(** Permission bits of the running user. *)
Record mode := Mode { m_r : bool; m_w : bool; m_x : bool }.

Definition rwx : mode := Mode true true true.

Inductive inode :=
| File (m : mode) (data : string) (mtime : Z)
| Dir (m : mode)
| Link (target : list string).   (* absolute target *)

(** Physical path (components below the root) to inode. *)
Abbreviation FS := (gmap (list string) inode).

Definition inode_at (fs : FS) (p : list string) : option inode :=
  match p with
  | [] => Some (Dir rwx)
  | _ => fs !! p
  end.

Definition dir_mode (fs : FS) (p : list string) : option mode :=
  match inode_at fs p with
  | Some (Dir m) => Some m
  | _ => None
  end.

Definition MAXSYMLINKS : nat := 40.

(** Path walk of the kernel from the directory [cur], following every
    link, the last component included; the physical path reached. *)
Fixpoint namei (links : nat) (fs : FS) (cur rest : list string)
  {struct links} : errno + list string :=
  (fix walk (cur rest : list string) {struct rest} : errno + list string :=
     match rest with
     | [] => inr cur
     | name :: rest' =>
         match dir_mode fs cur with
         | None => inl ENOTDIR
         | Some m =>
             if negb (m_x m) then inl EACCES
             else if decide (name = "..") then walk (removelast cur) rest'
             else
               match fs !! (cur ++ [name]) with
               | None => inl ENOENT
               | Some (Link t) =>
                   match links with
                   | O => inl ELOOP
                   | S l => namei l fs [] (t ++ rest')
                   end
               | Some _ => walk (cur ++ [name]) rest'
               end
         end
     end) cur rest.

(** [os.stat(p)] *)
Definition stat (fs : FS) (p : list string) : errno + inode :=
  match namei MAXSYMLINKS fs [] p with
  | inl e => inl e
  | inr q => match inode_at fs q with
             | Some i => inr i
             | None => inl ENOENT
             end
  end.

(** [os.lstat(p)]: the last component is not followed. *)
Definition lstat (fs : FS) (p : list string) : errno + inode :=
  match p with
  | [] => inr (Dir rwx)
  | _ =>
      match namei MAXSYMLINKS fs [] (removelast p) with
      | inl e => inl e
      | inr q =>
          match dir_mode fs q with
          | None => inl ENOTDIR
          | Some m =>
              if negb (m_x m) then inl EACCES
              else match inode_at fs (q ++ [List.last p ""]) with
                   | Some i => inr i
                   | None => inl ENOENT
                   end
          end
      end
  end.

(** [posixpath._joinrealpath] with [strict=False]: [seen] maps the links
    met so far to their resolution ([None] while it is in progress).
    [depth] bounds the nesting of links under resolution. *)
Fixpoint joinrealpath (depth : nat) (fs : FS) (path rest : list string)
  (seen : list (list string * option (list string))) {struct depth}
  : list string * bool * list (list string * option (list string)) :=
  (fix loop (path rest : list string)
       (seen : list (list string * option (list string))) {struct rest} :=
     match rest with
     | [] => (path, true, seen)
     | name :: rest' =>
         if decide (name = "..") then loop (removelast path) rest' seen
         else
           let newpath := path ++ [name] in
           match lstat fs newpath with
           | inr (Link target) =>
               match list_find (λ kv, kv.1 = newpath) seen with
               | Some (_, (_, Some p)) => loop p rest' seen
               | Some (_, (_, None)) => (newpath ++ rest', false, seen)
               | None =>
                   match depth with
                   | O => (newpath ++ rest', false, seen)
                   | S d =>
                       let '(p, ok, seen') :=
                         joinrealpath d fs [] target ((newpath, None) :: seen) in
                       if ok then loop p rest' ((newpath, Some p) :: seen')
                       else (p ++ rest', false, seen')
                   end
               end
           | _ => loop newpath rest' seen
           end
     end) path rest seen.

(** [os.path.realpath(p)] *)
Definition realpath (fs : FS) (p : list string) : list string :=
  (joinrealpath (S (size fs)) fs [] p []).1.1.

(** Names in the directory at the physical path [q]. *)
Definition children (fs : FS) (q : list string) : list string :=
  omap (λ kv, match last kv.1 with
              | Some n => if decide (removelast kv.1 = q) then Some n else None
              | None => None
              end) (map_to_list fs).

(** [os.listdir(p)] *)
Definition listdir (fs : FS) (p : list string) : errno + list string :=
  match namei MAXSYMLINKS fs [] p with
  | inl e => inl e
  | inr q =>
      match inode_at fs q with
      | Some (Dir m) => if m_r m then inr (children fs q) else inl EACCES
      | Some _ => inl ENOTDIR
      | None => inl ENOENT
      end
  end.

(** [os.mkdir(p)] *)
Definition mkdir (fs : FS) (p : list string) : errno + FS :=
  match p with
  | [] => inl EEXIST
  | _ =>
      match namei MAXSYMLINKS fs [] (removelast p) with
      | inl e => inl e
      | inr q =>
          match dir_mode fs q with
          | None => inl ENOTDIR
          | Some dm =>
              if negb (m_x dm) then inl EACCES
              else if decide (List.last p "" = "..") then inl EEXIST
              else match fs !! (q ++ [List.last p ""]) with
                   | Some _ => inl EEXIST
                   | None =>
                       if m_w dm then inr (<[q ++ [List.last p ""] := Dir rwx]> fs)
                       else inl EACCES
                   end
          end
      end
  end.

(** [os.path.isdir(p)] *)
Definition isdir (fs : FS) (p : list string) : bool :=
  match stat fs p with
  | inr (Dir _) => true
  | _ => false
  end.

(** [shutil._samefile(a, b)] *)
Definition samefile (fs : FS) (a b : list string) : bool :=
  match namei MAXSYMLINKS fs [] a, namei MAXSYMLINKS fs [] b with
  | inr x, inr y => bool_decide (x = y)
  | _, _ => false
  end.

(** [open(p, 'rb')] and the whole read, with the metadata [copystat]
    reads from the same file. *)
Definition read_file (fs : FS) (p : list string) : errno + (mode * string * Z) :=
  match stat fs p with
  | inl e => inl e
  | inr (File m d t) => if m_r m then inr (m, d, t) else inl EACCES
  | inr (Dir _) => inl EISDIR
  | inr (Link _) => inl ELOOP
  end.

(** [open(p, 'wb')]: the physical path that is truncated, when [p] leads
    to a file, or created, when only the last component is missing.  (A
    dangling link as last component is reported as [ENOENT].) *)
Definition write_target (fs : FS) (p : list string) : errno + list string :=
  match namei MAXSYMLINKS fs [] p with
  | inr q =>
      match inode_at fs q with
      | Some (File m _ _) => if m_w m then inr q else inl EACCES
      | Some (Dir _) => inl EISDIR
      | _ => inl ENOENT
      end
  | inl ENOENT =>
      match p with
      | [] => inl ENOENT
      | _ =>
          match namei MAXSYMLINKS fs [] (removelast p) with
          | inl e => inl e
          | inr q =>
              match dir_mode fs q with
              | None => inl ENOTDIR
              | Some dm =>
                  if negb (m_x dm) then inl EACCES
                  else match fs !! (q ++ [List.last p ""]) with
                       | None => if m_w dm then inr (q ++ [List.last p ""])
                                 else inl EACCES
                       | Some _ => inl ENOENT
                       end
              end
          end
      end
  | inl e => inl e
  end.

(** [shutil.copy2(src, dst)]: content, permission bits and times. *)
Definition copy2 (fs : FS) (src dst : list string) : exn + FS :=
  let dst := if isdir fs dst then dst ++ [List.last src ""] else dst in
  if samefile fs src dst then inl SameFileError
  else
    match read_file fs src with
    | inl e => inl (OSError_of e)
    | inr (m, d, t) =>
        match write_target fs dst with
        | inl e => inl (OSError_of e)
        | inr q => inr (<[q := File m d t]> fs)
        end
    end.

End Posix.

(** ** The world of one run, and the monad of the program *)

(** Which function asked for a directory listing. *)
Inductive site := Walker | Renderer.

(** Calls that reach the file system, in the order they are made. *)
Inductive syscall :=
| SysListdir (s : site) (p : Path)
| SysMkdir (p : Path)
| SysCopy (src dst : Path).

Inductive color :=
| GREEN | YELLOW | MAGENTA | CYAN | LIGHTMAGENTA_EX | RED
| LIGHTBLUE_EX | LIGHTCYAN_EX | LIGHTGREEN_EX | WHITE.

(** What the program writes to the terminal, one constructor per [print]
    (or [sys.stdout.write]) of the source, and its pauses. *)
Inductive event :=
| EvFatalSrc (src : Path)             (* "[FATAL] SRC '{src}' не існує." *)
| EvFatalDst (dst : Path)             (* "[FATAL] Не вдалося створити '{dst}'" *)
| EvProgress (i total : nat)          (* print_progress_bar(i / total) *)
| EvSleep (ms : nat)                  (* time.sleep(delay) *)
| EvNewline                           (* print() *)
| EvWarn (msg : string)               (* "[WARN] {e}" *)
| EvInfo                              (* "[INFO] Структура DST у вигляді дерева:\n" *)
| EvDir (indent prefix name : string) (* a directory line of the tree *)
| EvFile (indent prefix name : string) (c : color)  (* a file line *)
| EvInaccessible (subindent : string). (* subindent + "└── [недоступно]" *)

Record world := World {
  w_fs : Posix.FS;                 (* the disk *)
  w_cwd : list string;             (* physical working directory *)
  w_stdout : list event;           (* terminal, oldest first *)
  ERRORS : list string;            (* the module-level list *)
  files_to_copy : list Path;       (* the list object of [main], aliased by [out] *)
  w_calls : list syscall           (* record of the file-system calls *)
}.

Definition initial_world (fs : Posix.FS) (cwd : list string) : world :=
  World fs cwd [] [] [] [].

Definition M (A : Type) : Type := world → (exn + A) * world.

#[global] Instance M_ret : MRet M := λ A x w, (inr x, w).
#[global] Instance M_bind : MBind M := λ A B f m w,
  match m w with
  | (inr x, w') => f x w'
  | (inl e, w') => (inl e, w')
  end.

Definition raise {A} (e : exn) : M A := λ w, (inl e, w).

(** [try: body  except ...: ...]; [handler e = None] when no clause
    matches and [e] propagates. *)
Definition try_except {A} (body : M A) (handler : exn → option (M A)) : M A :=
  λ w, match body w with
       | (inl e, w') =>
           match handler e with
           | Some h => h w'
           | None => (inl e, w')
           end
       | r => r
       end.

Definition print (e : event) : M unit := λ w,
  (inr tt, World (w_fs w) (w_cwd w) (w_stdout w ++ [e]) (ERRORS w)
                 (files_to_copy w) (w_calls w)).

Definition log_call (c : syscall) : M unit := λ w,
  (inr tt, World (w_fs w) (w_cwd w) (w_stdout w) (ERRORS w)
                 (files_to_copy w) (w_calls w ++ [c])).

Definition set_fs (fs : Posix.FS) : M unit := λ w,
  (inr tt, World fs (w_cwd w) (w_stdout w) (ERRORS w)
                 (files_to_copy w) (w_calls w)).

Definition set_files (l : list Path) : M unit := λ w,
  (inr tt, World (w_fs w) (w_cwd w) (w_stdout w) (ERRORS w) l (w_calls w)).

Definition get {A} (f : world → A) : M A := λ w, (inr (f w), w).

(** [for x in l: body(x)] *)
Fixpoint for_each {A} (l : list A) (body : A → M unit) : M unit :=
  match l with
  | [] => mret tt
  | x :: l' => body x ;; for_each l' body
  end.

(** [warn(msg)]: [ERRORS.append(msg)] *)
Definition warn (msg : string) : M unit := λ w,
  (inr tt, World (w_fs w) (w_cwd w) (w_stdout w) (ERRORS w ++ [msg])
                 (files_to_copy w) (w_calls w)).

(** [out.append(item)] on the list object shared with [main]. *)
Definition out_append (item : Path) : M unit := λ w,
  (inr tt, World (w_fs w) (w_cwd w) (w_stdout w) (ERRORS w)
                 (files_to_copy w ++ [item]) (w_calls w)).

(** ** pathlib.Path and shutil on the file system *)

Module PathIO.

(** The absolute form the kernel sees. *)
Definition os_path (w : world) (p : Path) : list string :=
  if PyStr.truthy (anchor p) then parts p else w_cwd w ++ parts p.

Definition ignore_error (e : Posix.errno) : bool :=
  match e with
  | Posix.ENOENT | Posix.ENOTDIR | Posix.ELOOP => true
  | _ => false
  end.

(** [p.exists()] *)
Definition exists_ (p : Path) : M bool := λ w,
  match Posix.stat (w_fs w) (os_path w p) with
  | inr _ => (inr true, w)
  | inl e => if ignore_error e then (inr false, w)
             else (inl (Posix.OSError_of e), w)
  end.

(** [p.is_dir()] *)
Definition is_dir (p : Path) : M bool := λ w,
  match Posix.stat (w_fs w) (os_path w p) with
  | inr (Posix.Dir _) => (inr true, w)
  | inr _ => (inr false, w)
  | inl e => if ignore_error e then (inr false, w)
             else (inl (Posix.OSError_of e), w)
  end.

(** [p.is_file()] *)
Definition is_file (p : Path) : M bool := λ w,
  match Posix.stat (w_fs w) (os_path w p) with
  | inr (Posix.File _ _ _) => (inr true, w)
  | inr _ => (inr false, w)
  | inl e => if ignore_error e then (inr false, w)
             else (inl (Posix.OSError_of e), w)
  end.

(** [p.resolve()]: [realpath], then the check for a link loop. *)
Definition resolve (p : Path) : M Path := λ w,
  let s := Posix.realpath (w_fs w) (os_path w p) in
  match Posix.stat (w_fs w) s with
  | inl Posix.ELOOP => (inl RuntimeError, w)
  | _ => (inr (mkPath "/" s), w)
  end.

(** [list(p.iterdir())] *)
Definition iterdir (s : site) (p : Path) : M (list Path) :=
  log_call (SysListdir s p) ;;
  (λ w, match Posix.listdir (w_fs w) (os_path w p) with
        | inl e => (inl (Posix.OSError_of e), w)
        | inr names =>
            (inr (map (λ n, mkPath (anchor p) (parts p ++ [n])) names), w)
        end) : M (list Path).

(** [os.mkdir(p)] *)
Definition os_mkdir (p : Path) : M unit := λ w,
  match Posix.mkdir (w_fs w) (os_path w p) with
  | inl e => (inl (Posix.OSError_of e), w)
  | inr fs' => set_fs fs' w
  end.

(** [p.mkdir(parents=False, exist_ok=exist_ok)] *)
Definition mkdir_here (exist_ok : bool) (p : Path) : M unit :=
  try_except (os_mkdir p)
    (λ e : exn,
       if decide (e = FileNotFoundError) then None
       else if is_OSError e then
         Some (d ← (if exist_ok then is_dir p else mret false);
               if d : bool then mret tt else raise e)
       else None).

(** [p.mkdir(parents=True, exist_ok=exist_ok)]; [n] bounds the climb to
    the parents and is the number of components of [p]. *)
Fixpoint mkdir_parents (n : nat) (exist_ok : bool) (p : Path) : M unit :=
  try_except (os_mkdir p)
    (λ e : exn,
       if decide (e = FileNotFoundError) then
         match n with
         | O => None
         | S n' =>
             if decide (PurePath.parent p = p) then None
             else Some (mkdir_parents n' true (PurePath.parent p) ;;
                        mkdir_here exist_ok p)
         end
       else if is_OSError e then
         Some (d ← (if exist_ok then is_dir p else mret false);
               if d : bool then mret tt else raise e)
       else None).

(** [p.mkdir(parents=True, exist_ok=True)] *)
Definition mkdir (p : Path) : M unit :=
  log_call (SysMkdir p) ;;
  mkdir_parents (length (parts p)) true p.

(** [shutil.copy2(src, dst)] *)
Definition copy2 (src dst : Path) : M unit :=
  log_call (SysCopy src dst) ;;
  (λ w, match Posix.copy2 (w_fs w) (os_path w src) (os_path w dst) with
        | inl e => (inl e, w)
        | inr fs' => set_fs fs' w
        end) : M unit.

End PathIO.

(** ** The program *)

Definition EXT_COLOR_MAP_get (ext : string) : color :=
  if decide (ext = "txt") then GREEN
  else if decide (ext = "log") then YELLOW
  else if decide (ext = "jpg") then MAGENTA
  else if decide (ext = "jpeg") then MAGENTA
  else if decide (ext = "png") then CYAN
  else if decide (ext = "gif") then LIGHTMAGENTA_EX
  else if decide (ext = "pdf") then RED
  else if decide (ext = "doc") then LIGHTBLUE_EX
  else if decide (ext = "xml") then LIGHTCYAN_EX
  else if decide (ext = "yml") then LIGHTGREEN_EX
  else WHITE (* DEFAULT_FILE_COLOR *).

(** [print_progress_bar(i / total)]: the quotient is the only part that
    can fail; the bar itself is drawn from it. *)
Definition print_progress_bar (i total : nat) : M unit :=
  if (total =? 0)%nat then raise ZeroDivisionError
  else print (EvProgress i total).

Definition ioerror_handler (denied other : string) (p : Path) (e : exn)
  : option (M unit) :=
  if decide (e = PermissionError) then Some (warn (denied +:+ PurePath.str p))
  else if is_OSError e then Some (warn (other +:+ PurePath.str p))
  else None.

(** [skip_dir and item.resolve() == skip_dir.resolve()] *)
Definition is_skipped (skip_dir : option Path) (item : Path) : M bool :=
  match skip_dir with
  | None => mret false
  | Some sd =>
      a ← PathIO.resolve item;
      b ← PathIO.resolve sd;
      mret (bool_decide (a = b))
  end.

(** The first [try] of the walker: the entries of [src], or [None] after
    the warning, when the function returns at once. *)
Definition walker_listing (src : Path) : M (option (list Path)) :=
  try_except
    (entries ← PathIO.iterdir Walker src; mret (Some entries))
    (λ e : exn,
       if decide (e = PermissionError)
       then Some (warn ("Немає доступу: " +:+ PurePath.str src) ;; mret None)
       else if is_OSError e
       then Some (warn ("Помилка читання: " +:+ PurePath.str src) ;; mret None)
       else None).

(** The body of [for item in entries]; [recurse] is the recursive call. *)
Definition walker_item (recurse : Path → M unit) (skip_dir : option Path)
  (item : Path) : M unit :=
  skipped ← is_skipped skip_dir item;
  if skipped : bool then mret tt
  else
    try_except
      (d ← PathIO.is_dir item;
       if d : bool then recurse item
       else
         f ← PathIO.is_file item;
         if f : bool then out_append item else mret tt)
      (ioerror_handler "Немає доступу: " "Помилка читання: " item).

Fixpoint collect_files_recursive (limit : nat) (src : Path)
  (skip_dir : option Path) : M unit :=
  match limit with
  | O => raise RecursionError
  | S depth =>
      listing ← walker_listing src;
      match listing with
      | None => mret tt
      | Some entries =>
          for_each entries
            (walker_item (λ item, collect_files_recursive depth item skip_dir)
                         skip_dir)
      end
  end.

(** Order of the keys [(x.is_file(), x.name)]: tuples compare
    lexicographically, [False < True], strings by code point. *)
Definition key_lt (a b : bool * string) : bool :=
  match a.1, b.1 with
  | false, true => true
  | true, false => false
  | _, _ => String.ltb a.2 b.2
  end.

(** [sorted(l, key=...)] on the list with its keys: a stable sort that
    compares with [<] only. *)
Fixpoint insert_by_key {A} (x : (bool * string) * A) (l : list ((bool * string) * A)) :=
  match l with
  | [] => [x]
  | y :: l' => if key_lt y.1 x.1 then y :: insert_by_key x l' else x :: l
  end.

Fixpoint sorted_by_key {A} (l : list ((bool * string) * A)) :=
  match l with
  | [] => []
  | x :: l' => insert_by_key x (sorted_by_key l')
  end.

(** The keys of the entries, computed in order before the sort. *)
Fixpoint entry_keys (l : list Path) : M (list ((bool * string) * Path)) :=
  match l with
  | [] => mret []
  | x :: l' =>
      f ← PathIO.is_file x;
      rest ← entry_keys l';
      mret (((f, PurePath.name x), x) :: rest)
  end.

(** [sorted(path.iterdir(), key=lambda x: (x.is_file(), x.name))] *)
Definition sorted_entries (path : Path) : M (list Path) :=
  items ← PathIO.iterdir Renderer path;
  keyed ← entry_keys items;
  mret (map snd (sorted_by_key keyed)).

(** [for i, item in enumerate(entries): ...] of [display_tree]. *)
Fixpoint for_enumerate {A} (i : nat) (l : list A) (body : nat → A → M unit)
  : M unit :=
  match l with
  | [] => mret tt
  | x :: l' => body i x ;; for_enumerate (S i) l' body
  end.

(** The [try] of the renderer: the sorted entries of [path], or [None]
    after the warning and the marker, when the function returns. *)
Definition render_listing (path : Path) (subindent : string)
  : M (option (list Path)) :=
  try_except
    (entries ← sorted_entries path; mret (Some entries))
    (λ e : exn,
       if is_Exception e
       then Some (warn ("Немає доступу: " +:+ PurePath.str path) ;;
                  print (EvInaccessible subindent) ;;
                  mret None)
       else None).

(** The connector of the entry at index [i] among [n]. *)
Definition connector (i n : nat) : string :=
  let is_last := (i =? n - 1)%nat in
  if is_last then "└── " else "├── ".

Fixpoint display_tree (limit : nat) (path : Path) (indent prefix : string)
  : M unit :=
  match limit with
  | O => raise RecursionError
  | S depth =>
      d ← PathIO.is_dir path;
      if d : bool then
        print (EvDir indent prefix (PurePath.name path)) ;;
        let subindent := indent +:+ (if PyStr.truthy prefix then "    " else "") in
        listing ← render_listing path subindent;
        match listing with
        | None => mret tt
        | Some entries =>
            for_enumerate 0 entries (λ i item,
              display_tree depth item subindent (connector i (length entries)))
        end
      else
        let color := EXT_COLOR_MAP_get (PyStr.lstrip "." (PurePath.suffix path)) in
        print (EvFile indent prefix (PurePath.name path) color)
  end.

(** The copy loop of [main]: [for i, file_path in enumerate(files, start=1)]. *)
Definition copy_one (dst file_path : Path) : M unit :=
  let ext_dir := get_extension_subdir file_path in
  let target_dir := dst // ext_dir in
  let target_file := target_dir // PurePath.name file_path in
  try_except
    (PathIO.mkdir target_dir ;; PathIO.copy2 file_path target_file)
    (λ e : exn,
       if decide (e = PermissionError)
       then Some (warn ("Немає доступу: " +:+ PurePath.str file_path))
       else if decide (e = FileNotFoundError)
       then Some (warn ("Файл не знайдено: " +:+ PurePath.str file_path))
       else if is_OSError e
       then Some (warn ("Помилка копіювання: " +:+ PurePath.str file_path))
       else None).

Fixpoint copy_loop (dst : Path) (total delay : nat) (i : nat)
  (files : list Path) : M unit :=
  match files with
  | [] => mret tt
  | file_path :: rest =>
      copy_one dst file_path ;;
      print_progress_bar i total ;;
      print (EvSleep delay) ;;
      copy_loop dst total delay (S i) rest
  end.

(** [skip_dir = dst if dst == src or is_inside(dst, src) else None] *)
Definition choose_skip_dir (src dst : Path) : M (option Path) :=
  b ← (if decide (dst = src) then mret true else
         ((λ w, (is_inside dst src, w)) : M bool));
  mret (if b : bool then Some dst else None).

(** [main()], with the parsed arguments and the recursion limit. *)
Definition main (limit : nat) (args_src args_dst : Path) : M unit :=
  src ← PathIO.resolve args_src;
  dst ← PathIO.resolve args_dst;
  e ← PathIO.exists_ src;
  d ← (if e : bool then PathIO.is_dir src else mret false);
  if negb e || negb d then print (EvFatalSrc src)
  else
    skip_dir ← choose_skip_dir src dst;
    made ← try_except (PathIO.mkdir dst ;; mret true)
             (λ e : exn,
                if is_OSError e then Some (print (EvFatalDst dst) ;; mret false)
                else None);
    if negb made then mret tt
    else
      set_files [] ;;
      collect_files_recursive limit src skip_dir ;;
      files ← get files_to_copy;
      let total := length files in
      if (total =? 0)%nat then display_tree limit dst "" ""
      else
        let delay := if (total <=? 20)%nat then 200%nat
                     else if (total <=? 100)%nat then 100%nat else 30%nat in
        copy_loop dst total delay 1 files ;;
        print EvNewline ;;
        errors ← get ERRORS;
        (if bool_decide (errors ≠ [])
         then for_each errors (λ e, print (EvWarn e)) ;; print EvNewline
         else mret tt) ;;
        print EvInfo ;;
        display_tree limit dst "" "".

(** ** Vocabulary of the statements *)

(** [w'] is [w] with the disk [fs'] and with [out], [errs], [files] and
    [calls] appended to the terminal, to [ERRORS], to the collected list
    and to the call record. *)
Definition grows (w w' : world) (fs' : Posix.FS) (out : list event)
  (errs : list string) (files : list Path) (calls : list syscall) : Prop :=
  w' = World fs' (w_cwd w) (w_stdout w ++ out) (ERRORS w ++ errs)
             (files_to_copy w ++ files) (w_calls w ++ calls).

(** The entry [n] of the directory [d], as [iterdir] builds it. *)
Definition child (d : Path) (n : string) : Path :=
  mkPath (anchor d) (parts d ++ [n]).

(** The call is a listing made by the walker of a directory in [I]. *)
Definition walker_lists (I : Path → Prop) (c : syscall) : Prop :=
  ∃ d, c = SysListdir Walker d ∧ I d.

(** The call is a listing made by the renderer. *)
Definition renderer_lists (c : syscall) : Prop :=
  ∃ d, c = SysListdir Renderer d.

(** What a call of the walker leaves behind when every directory it lists
    satisfies [I] and every file it collects satisfies [J]. *)
Definition walk_post (fs : Posix.FS) (I J : Path → Prop) (w w' : world) : Prop :=
  ∃ errs files calls,
    grows w w' fs [] errs files calls
    ∧ Forall J files ∧ Forall (walker_lists I) calls.

(** The inode is a file or a directory. *)
Definition not_link (i : Posix.inode) : Prop :=
  match i with Posix.Link _ => False | _ => True end.

(** Nothing, or a regular file, is at the physical path [k]. *)
Definition vacant (fs : Posix.FS) (k : list string) : Prop :=
  fs !! k = None ∨ ∃ m d t, fs !! k = Some (Posix.File m d t).

(** [fs'] is [fs] with new directories at paths that were free. *)
Inductive dirs_added : Posix.FS → Posix.FS → Prop :=
| dirs_added_none fs : dirs_added fs fs
| dirs_added_one fs k fs' :
    fs !! k = None →
    dirs_added (<[k := Posix.Dir Posix.rwx]> fs) fs' →
    dirs_added fs fs'.

(** Every way out of [p.mkdir(...)]: new directories only, an [OSError]
    or a return with [p] a directory. *)
Definition mkdir_post (p : Path) (w : world) (r : exn + unit) (w' : world)
  : Prop :=
  (∃ fs', grows w w' fs' [] [] [] [] ∧ dirs_added (w_fs w) fs')
  ∧ (∀ e, r = inl e → is_OSError e = true)
  ∧ (r = inr tt → PathIO.is_dir p w' = (inr true, w')).

(** The paths of one copy: [dst/<bucket>] and [dst/<bucket>/<name>]. *)
Definition target_dir (dst f : Path) : Path := dst // get_extension_subdir f.

Definition target_file (dst f : Path) : Path :=
  target_dir dst f // PurePath.name f.

(** Where [copy2 f t] writes: [t], or the entry named after [f] inside
    [t] when [t] is a directory. *)
Definition landing (w : world) (f t : Path) : list string :=
  if Posix.isdir (w_fs w) (PathIO.os_path w t)
  then PathIO.os_path w t ++ [List.last (PathIO.os_path w f) ""]
  else PathIO.os_path w t.

(** One pass of the copy loop on the file [f], from [w] to [w1]: either
    the bucket was made (world [wm]) and the file copied, nothing added to
    [ERRORS]; or exactly one warning that names [f] was added and the disk
    gained directories at most. *)
Inductive attempt (dst f : Path) (w w1 : world) : Prop :=
| attempt_copied wm q m d mt :
    PathIO.mkdir (target_dir dst f) w = (inr tt, wm) →
    PathIO.copy2 f (target_file dst f) wm = (inr tt, w1) →
    dirs_added (w_fs w) (w_fs wm) →
    ERRORS w1 = ERRORS w →
    Posix.read_file (w_fs wm) (PathIO.os_path wm f) = inr (m, d, mt) →
    vacant (w_fs wm) q → q ≠ [] →
    w_fs w1 = <[q := Posix.File m d mt]> (w_fs wm) →
    Posix.namei Posix.MAXSYMLINKS (w_fs w1) [] (landing wm f (target_file dst f))
      = inr q →
    Posix.read_file (w_fs w1) (landing wm f (target_file dst f)) = inr (m, d, mt) →
    attempt dst f w w1
| attempt_warned pre :
    ERRORS w1 = ERRORS w ++ [pre +:+ PurePath.str f] →
    dirs_added (w_fs w) (w_fs w1) →
    attempt dst f w w1.

(** The copy loop over [files], numbered from [i]: one attempt per file,
    each followed by its progress report and its pause. *)
Inductive batch (dst : Path) (total delay : nat)
  : nat → list Path → world → world → Prop :=
| batch_done i w : batch dst total delay i [] w w
| batch_step i f rest w w1 w2 w' :
    copy_one dst f w = (inr tt, w1) →
    attempt dst f w w1 →
    grows w1 w2 (w_fs w1) [EvProgress i total; EvSleep delay] [] [] [] →
    batch dst total delay (S i) rest w2 w' →
    batch dst total delay i (f :: rest) w w'.

(** The call belongs to the copy of one of [files] into [dst]. *)
Definition copy_call (dst : Path) (files : list Path) (c : syscall) : Prop :=
  ∃ f, f ∈ files
       ∧ (c = SysMkdir (target_dir dst f) ∨ c = SysCopy f (target_file dst f)).

(** What the progress bar prints for the passes [i], [i+1], ... *)
Fixpoint progress_out (total delay i n : nat) : list event :=
  match n with
  | O => []
  | S n' => EvProgress i total :: EvSleep delay :: progress_out total delay (S i) n'
  end.

(** The event is a line of the rendered tree. *)
Definition tree_event (e : event) : Prop :=
  match e with
  | EvDir _ _ _ | EvFile _ _ _ _ | EvInaccessible _ => True
  | _ => False
  end.

(** Indentation, connector and name of a line of the tree. *)
Definition line_head (e : event) : option (string * string * string) :=
  match e with
  | EvDir indent prefix name => Some (indent, prefix, name)
  | EvFile indent prefix name _ => Some (indent, prefix, name)
  | _ => None
  end.

(** [a <= b] on the sort keys: [not (b < a)]. *)
Definition key_le (a b : bool * string) : Prop := key_lt b a = false.

(** What a call of the renderer leaves behind: lines of the tree,
    warnings, listings; it stops on the recursion limit or on an [OSError]
    at most. *)
Definition render_post (w : world) (r : exn + unit) (w' : world) : Prop :=
  ∃ out errs calls,
    grows w w' (w_fs w) out errs [] calls
    ∧ Forall tree_event out ∧ Forall renderer_lists calls
    ∧ (∀ e, r = inl e → e = RecursionError ∨ is_OSError e = true).

(** The sort key of an entry: [(x.is_file(), x.name)]. *)
Definition file_flag (w : world) (x : Path) : bool :=
  match PathIO.is_file x w with
  | (inr b, _) => b
  | _ => false
  end.

Definition entry_key (w : world) (x : Path) : bool * string :=
  (file_flag w x, PurePath.name x).

(** The absolute path [p] is neither [dst] nor below it. *)
Definition outside (dst p : Path) : Prop :=
  anchor p = "/" ∧ is_inside p dst = inr false.

(** The calls a run of [main] can make, with the collected [files]. *)
Definition run_call (dst : Path) (files : list Path) (c : syscall) : Prop :=
  (∃ p, c = SysMkdir p)
  ∨ walker_lists (outside dst) c
  ∨ renderer_lists c
  ∨ copy_call dst files c.

(** One pass of the copy loop in the words of the specification: the file
    is at the bucket path [dst/<bucket>/<name>] with the content and the
    metadata of the source, or exactly one warning was added. *)
Definition attempt_as_stated (dst f : Path) (w w1 : world) : Prop :=
  (∃ m d mt,
     Posix.read_file (w_fs w) (PathIO.os_path w f) = inr (m, d, mt)
     ∧ Posix.read_file (w_fs w1) (PathIO.os_path w1 (target_file dst f))
       = inr (m, d, mt))
  ∨ (∃ msg, ERRORS w1 = ERRORS w ++ [msg]).

Definition is_regular (i : Posix.inode) : bool :=
  match i with Posix.File _ _ _ => true | _ => false end.

(** Number of regular files at or below the physical path [d]. *)
Definition files_under (fs : Posix.FS) (d : list string) : nat :=
  size (filter (λ kv, d `prefix_of` kv.1 ∧ is_regular kv.2 = true) fs).

(** A name a directory entry has on disk. *)
Definition entry_name (n : string) : Prop := n ≠ "" ∧ n ≠ "." ∧ n ≠ "..".

(** [d] is an absolute path without links that leads to a directory with
    nothing in it. *)
Definition empty_dir (fs : Posix.FS) (d : Path) : Prop :=
  anchor d = "/"
  ∧ Posix.namei Posix.MAXSYMLINKS fs [] (parts d) = inr (parts d)
  ∧ (∃ m, fs !! parts d = Some (Posix.Dir m))
  ∧ ∀ k, parts d `prefix_of` k → k ≠ parts d → fs !! k = None.

(** A destination at the physical path [d] that was empty when the copy
    loop began: it holds bucket directories and, inside them, regular
    files whose names are among [names]; [n] regular files in all. *)
Definition buckets_of (fs : Posix.FS) (d : list string) (names : list string)
  (n : nat) : Prop :=
  Posix.namei Posix.MAXSYMLINKS fs [] d = inr d
  ∧ (∃ m, fs !! d = Some (Posix.Dir m))
  ∧ (∀ s i, s ≠ [] → fs !! (d ++ s) = Some i →
       (∃ e, s = [e] ∧ i = Posix.Dir Posix.rwx)
       ∨ (∃ e nm, s = [e; nm] ∧ is_regular i = true ∧ nm ∈ names))
  ∧ files_under fs d = n.

(** The pause after each copy, in milliseconds, chosen from [total]. *)
Definition delay_ms (total : nat) : nat :=
  if (total <=? 20)%nat then 200%nat
  else if (total <=? 100)%nat then 100%nat else 30%nat.

(** What [main] prints between the copy loop and the tree. *)
Definition flush_out (errors : list string) : list event :=
  EvNewline
  :: (if bool_decide (errors ≠ []) then map EvWarn errors ++ [EvNewline] else [])
  ++ [EvInfo].

(** [files_to_copy = []] *)
Definition reset_files (w : world) : world :=
  World (w_fs w) (w_cwd w) (w_stdout w) (ERRORS w) [] (w_calls w).

(** The arguments resolve to [src] and [dst], [src] is a directory, the
    skip directory is [skip] and [dst] has been made, in the world [w1]. *)
Definition validated (a_src a_dst src dst : Path) (skip : option Path)
  (w w1 : world) : Prop :=
  PathIO.resolve a_src w = (inr src, w)
  ∧ PathIO.resolve a_dst w = (inr dst, w)
  ∧ PathIO.exists_ src w = (inr true, w)
  ∧ PathIO.is_dir src w = (inr true, w)
  ∧ choose_skip_dir src dst w = (inr skip, w)
  ∧ PathIO.mkdir dst w = (inr tt, w1).

(** The ways a run of [main] goes, stage by stage. *)
Inductive main_run (limit : nat) (a_src a_dst : Path) (w : world)
  : exn + unit → world → Prop :=
| run_unresolved e :
    PathIO.resolve a_src w = (inl e, w)
    ∨ (∃ src, PathIO.resolve a_src w = (inr src, w)
              ∧ PathIO.resolve a_dst w = (inl e, w)) →
    main_run limit a_src a_dst w (inl e) w
| run_stat_raised src dst e :
    PathIO.resolve a_src w = (inr src, w) →
    PathIO.resolve a_dst w = (inr dst, w) →
    PathIO.exists_ src w = (inl e, w) ∨ PathIO.is_dir src w = (inl e, w) →
    main_run limit a_src a_dst w (inl e) w
| run_fatal_src src dst w' :
    PathIO.resolve a_src w = (inr src, w) →
    PathIO.resolve a_dst w = (inr dst, w) →
    PathIO.exists_ src w = (inr false, w) ∨ PathIO.is_dir src w = (inr false, w) →
    grows w w' (w_fs w) [EvFatalSrc src] [] [] [] →
    main_run limit a_src a_dst w (inr tt) w'
| run_fatal_dst src dst skip e w1 w' :
    PathIO.resolve a_src w = (inr src, w) →
    PathIO.resolve a_dst w = (inr dst, w) →
    PathIO.is_dir src w = (inr true, w) →
    choose_skip_dir src dst w = (inr skip, w) →
    PathIO.mkdir dst w = (inl e, w1) → is_OSError e = true →
    grows w1 w' (w_fs w1) [EvFatalDst dst] [] [] [] →
    main_run limit a_src a_dst w (inr tt) w'
| run_walk_raised src dst skip w1 w2 e :
    validated a_src a_dst src dst skip w w1 →
    collect_files_recursive limit src skip (reset_files w1) = (inl e, w2) →
    main_run limit a_src a_dst w (inl e) w2
| run_empty src dst skip w1 w2 r w' :
    validated a_src a_dst src dst skip w w1 →
    collect_files_recursive limit src skip (reset_files w1) = (inr tt, w2) →
    files_to_copy w2 = [] →
    display_tree limit dst "" "" w2 = (r, w') →
    main_run limit a_src a_dst w r w'
| run_copied src dst skip w1 w2 w3 w4 r w' :
    validated a_src a_dst src dst skip w w1 →
    collect_files_recursive limit src skip (reset_files w1) = (inr tt, w2) →
    files_to_copy w2 ≠ [] →
    copy_loop dst (length (files_to_copy w2))
              (delay_ms (length (files_to_copy w2))) 1 (files_to_copy w2) w2
      = (inr tt, w3) →
    grows w3 w4 (w_fs w3) (flush_out (ERRORS w3)) [] [] [] →
    display_tree limit dst "" "" w4 = (r, w') →
    main_run limit a_src a_dst w r w'.

(** ** Sample trees *)

Module Sample.

Definition regular (data : string) : Posix.inode :=
  Posix.File Posix.rwx data 1700000000.

Definition folder : Posix.inode := Posix.Dir Posix.rwx.

(** [/data/src] with two files, a subdirectory, the destination
    [/data/src/dist] of an earlier run, and a link to that destination. *)
Definition nested : Posix.FS :=
  list_to_map
    [ (["data"], folder);
      (["data"; "src"], folder);
      (["data"; "src"; "a.txt"], regular "alpha");
      (["data"; "src"; "sub"], folder);
      (["data"; "src"; "sub"; "b.JPG"], regular "beta");
      (["data"; "src"; "dist"], folder);
      (["data"; "src"; "dist"; "txt"], folder);
      (["data"; "src"; "dist"; "txt"; "a.txt"], regular "alpha");
      (["data"; "src"; "shortcut"], Posix.Link ["data"; "src"; "dist"]) ].

Definition src : Path := mkPath "/" ["data"; "src"].
Definition dist : Path := mkPath "/" ["data"; "src"; "dist"].
Definition shortcut : Path := mkPath "/" ["data"; "src"; "shortcut"].

(** A destination with two buckets and a loose file. *)
Definition sorted_out : Posix.FS :=
  list_to_map
    [ (["out"], folder);
      (["out"; "txt"], folder);
      (["out"; "txt"; "b.txt"], regular "b");
      (["out"; "txt"; "a.txt"], regular "a");
      (["out"; "jpg"], folder);
      (["out"; "jpg"; "p.jpg"], regular "p");
      (["out"; "README"], regular "r") ].

Definition out : Path := mkPath "/" ["out"].

(** A source that cannot be listed, and no destination yet. *)
Definition locked : Posix.FS :=
  list_to_map
    [ (["vault"], Posix.Dir (Posix.Mode false true true));
      (["vault"; "secret.txt"], regular "s") ].

Definition vault : Path := mkPath "/" ["vault"].

(** A source with one file; the destination holds a directory that
    cannot be listed. *)
Definition guarded : Posix.FS :=
  list_to_map
    [ (["in"], folder);
      (["in"; "a.txt"], regular "a");
      (["out"], folder);
      (["out"; "private"], Posix.Dir (Posix.Mode false true true)) ].

Definition inbox : Path := mkPath "/" ["in"].

(** A source with one file; the bucket path of that file is already a
    directory of the destination. *)
Definition occupied : Posix.FS :=
  list_to_map
    [ (["in"], folder);
      (["in"; "a.txt"], regular "a");
      (["out"], folder);
      (["out"; "txt"], folder);
      (["out"; "txt"; "a.txt"], folder) ].

(** Two files of the same name in different directories. *)
Definition twins : Posix.FS :=
  list_to_map
    [ (["in"], folder);
      (["in"; "x"], folder);
      (["in"; "x"; "a.txt"], regular "first");
      (["in"; "y"], folder);
      (["in"; "y"; "a.txt"], regular "second") ].

(** Files of different names and buckets. *)
Definition plain : Posix.FS :=
  list_to_map
    [ (["in"], folder);
      (["in"; "a.txt"], regular "a");
      (["in"; "b.JPG"], regular "b");
      (["in"; "sub"], folder);
      (["in"; "sub"; "README"], regular "r") ].

End Sample.

(** * Properties *)

(** ** Strings and the classifier *)

#[local] Arguments String.append !_ _ / : simpl nomatch.

Section PyStrFacts.

Variable c : ascii.

Lemma rfind_lacks s : PyStr.lacks c s = true → PyStr.rfind c s = (-1)%Z.
Proof.
  induction s as [|a s IH]; simpl; [done|].
  intros [Ha Hs]%andb_prop. rewrite (IH Hs). simpl.
  apply negb_true_iff in Ha. by rewrite Ha.
Qed.

Lemma rfind_app_last pre post :
  PyStr.lacks c post = true →
  PyStr.rfind c (pre +:+ String c post) = Z.of_nat (String.length pre).
Proof.
  intros Hpost. induction pre as [|a pre IH]; simpl.
  - rewrite (rfind_lacks _ Hpost). simpl. by rewrite Ascii.eqb_refl.
  - rewrite IH. destruct (0 <=? Z.of_nat (String.length pre))%Z eqn:E; lia.
Qed.

Lemma rfind_split s :
  (0 <= PyStr.rfind c s)%Z →
  ∃ pre post, s = pre +:+ String c post
              ∧ Z.of_nat (String.length pre) = PyStr.rfind c s
              ∧ PyStr.lacks c post = true.
Proof.
  induction s as [|a s IH]; simpl; [lia|].
  destruct (0 <=? PyStr.rfind c s)%Z eqn:E.
  - intros _. destruct IH as (pre & post & -> & Hl & Hp); [lia|].
    exists (String a pre), post. simpl. split_and!; [done|lia|done].
  - destruct (Ascii.eqb a c) eqn:Eac; [|lia]. intros _.
    apply Ascii.eqb_eq in Eac as ->.
    exists "", s. simpl. split_and!; [done..|].
    clear IH. apply Z.leb_gt in E.
    induction s as [|b s IHs]; simpl in *; [done|].
    destruct (0 <=? PyStr.rfind c s)%Z eqn:E'; [lia|].
    destruct (Ascii.eqb b c); [lia|]. simpl. apply IHs. lia.
Qed.

Lemma drop_app pre s : PyStr.drop (String.length pre) (pre +:+ s) = s.
Proof. induction pre as [|a pre IH]; simpl; [by destruct s|exact IH]. Qed.

End PyStrFacts.

Lemma length_app_string a b :
  String.length (a +:+ b) = (String.length a + String.length b)%nat.
Proof. induction a; simpl; [done|by f_equal]. Qed.

Lemma lower_app a b : PyStr.lower (a +:+ b) = PyStr.lower a +:+ PyStr.lower b.
Proof. induction a; simpl; [done|by f_equal]. Qed.

Lemma lower_ascii_dot a : PyStr.lower_ascii a = "."%char → a = "."%char.
Proof.
  destruct a as [[] [] [] [] [] [] [] []]; vm_compute; congruence.
Qed.

Lemma lower_lacks_dot s :
  PyStr.lacks "." s = true → PyStr.lacks "." (PyStr.lower s) = true.
Proof.
  induction s as [|a s IH]; simpl; [done|].
  intros [Ha Hs]%andb_prop. rewrite (IH Hs), andb_true_r.
  apply negb_true_iff, Ascii.eqb_neq in Ha.
  apply negb_true_iff, Ascii.eqb_neq. intros E. by apply Ha, lower_ascii_dot.
Qed.

Lemma lstrip_lacks c s : PyStr.lacks c s = true → PyStr.lstrip c s = s.
Proof.
  destruct s as [|a s]; simpl; [done|].
  intros [Ha _]%andb_prop. apply negb_true_iff in Ha. by rewrite Ha.
Qed.

(** The suffix of a name [stem.ext]. *)
Lemma suffix_of_name p stem ext :
  PurePath.name p = stem +:+ "." +:+ ext →
  stem ≠ "" → ext ≠ "" → PyStr.lacks "." ext = true →
  PurePath.suffix p = "." +:+ ext.
Proof.
  intros Hn Hs He Hl. unfold PurePath.suffix. rewrite Hn.
  change (stem +:+ "." +:+ ext) with (stem +:+ String "." ext).
  rewrite (rfind_app_last _ _ _ Hl), length_app_string. simpl.
  destruct stem as [|a stem]; [done|]. destruct ext as [|b ext]; [done|].
  simpl String.length.
  replace (0 <? Z.of_nat (S (String.length stem)))%Z with true
    by (symmetry; apply Z.ltb_lt; lia).
  replace (Z.of_nat (S (String.length stem)) <?
           Z.of_nat (S (String.length stem) + S (S (String.length ext))) - 1)%Z
    with true by (symmetry; apply Z.ltb_lt; lia).
  simpl andb. cbv iota. unfold PyStr.slice_from. rewrite Nat2Z.id.
  apply (drop_app (String a stem)).
Qed.

(** A name with a suffix splits as [stem.ext]. *)
Lemma name_of_suffix p :
  PurePath.suffix p ≠ "" →
  ∃ stem ext, PurePath.name p = stem +:+ "." +:+ ext
              ∧ stem ≠ "" ∧ ext ≠ "" ∧ PyStr.lacks "." ext = true.
Proof.
  unfold PurePath.suffix.
  destruct (0 <? PyStr.rfind "." (PurePath.name p))%Z eqn:E1; [|done].
  destruct (PyStr.rfind "." (PurePath.name p) <?
            Z.of_nat (String.length (PurePath.name p)) - 1)%Z eqn:E2; [|done].
  intros _. apply Z.ltb_lt in E1, E2.
  destruct (rfind_split "." (PurePath.name p)) as (pre & post & Hn & Hl & Hp); [lia|].
  exists pre, post. split; [done|].
  rewrite <- Hl in E1, E2. rewrite Hn, length_app_string in E2. simpl in E2.
  split_and!; [| |done].
  - intros ->. simpl in E1. lia.
  - intros ->. simpl in E2. lia.
Qed.



(** ** Containment *)

Lemma truthy_nonempty s : PyStr.truthy s = true ↔ s ≠ "".
Proof. destruct s; simpl; split; congruence. Qed.

Lemma starts_with_spec l pre :
  PurePath.starts_with l pre = true ↔ ∃ rest, l = pre ++ rest.
Proof.
  revert l. induction pre as [|a pre IH]; intros l; simpl.
  - split; [intros _; by exists l|by destruct l].
  - destruct l as [|b l]; simpl.
    + split; [discriminate|]. intros [rest ?]. discriminate.
    + rewrite andb_true_iff, bool_decide_eq_true, IH. split.
      * intros [-> [rest ->]]. by exists rest.
      * intros [rest [= -> ->]]. split; [done|by exists rest].
Qed.

Lemma relative_to_raises self other e :
  PurePath.relative_to self other = inl e → e = ValueError.
Proof.
  unfold PurePath.relative_to.
  destruct (if (length (PurePath.abs_parts other) =? 0)%nat then _ else _);
    congruence.
Qed.

(** The containment test never lets an exception escape. *)
Lemma is_inside_total child parent :
  is_inside child parent
  = inr (match PurePath.relative_to child parent with
         | inr _ => true
         | inl _ => false
         end).
Proof.
  unfold is_inside.
  destruct (PurePath.relative_to child parent) as [e|r] eqn:E; [|done].
  rewrite (relative_to_raises _ _ _ E). by rewrite decide_True.
Qed.

Lemma is_inside_absolute src dst :
  anchor src ≠ "" → anchor dst ≠ "" →
  is_inside dst src = inr true
  ↔ anchor dst = anchor src ∧ ∃ rest, parts dst = parts src ++ rest.
Proof.
  intros Hs Hd. unfold is_inside, PurePath.relative_to, PurePath.abs_parts.
  apply truthy_nonempty in Hs as Hs', Hd as Hd'. rewrite Hs', Hd'. simpl.
  destruct (bool_decide (anchor src = anchor dst)) eqn:Ea; simpl.
  - apply bool_decide_eq_true in Ea.
    destruct (PurePath.starts_with (parts dst) (parts src)) eqn:Es; simpl.
    + apply starts_with_spec in Es. done.
    + split; [done|]. intros [_ Hr]. apply starts_with_spec in Hr. congruence.
  - apply bool_decide_eq_false in Ea. split; [done|]. intros [? _]. congruence.
Qed.

(** C6. For absolute paths, [is_inside dst src] answers [True] exactly
    when [dst] is [src] or [src] followed by further components; it always
    returns a boolean; whenever the relativity test raises, the answer is
    [False]; paths with different roots are not contained. *)
Theorem is_inside_spec (src dst : Path) :
  anchor src ≠ "" → anchor dst ≠ "" →
  (is_inside dst src = inr true
   ↔ dst = src ∨ ∃ rest, rest ≠ [] ∧ dst = mkPath (anchor src) (parts src ++ rest))
  ∧ (∃ b, is_inside dst src = inr b)
  ∧ (∀ e, PurePath.relative_to dst src = inl e → is_inside dst src = inr false)
  ∧ (anchor dst ≠ anchor src → is_inside dst src = inr false).
Proof.
  intros Hs Hd. split_and!.
  - rewrite (is_inside_absolute _ _ Hs Hd). destruct src as [a ps], dst as [b pd].
    simpl in *. split.
    + intros [-> [rest ->]]. destruct rest as [|x rest].
      * left. by rewrite app_nil_r.
      * right. by exists (x :: rest).
    + intros [[= -> ->]|(rest & _ & [= -> ->])]; split; try done.
      * exists []. by rewrite app_nil_r.
      * by exists rest.
  - rewrite is_inside_total. eauto.
  - intros e He. by rewrite is_inside_total, He.
  - intros Hne. pose proof (is_inside_absolute _ _ Hs Hd) as H.
    rewrite is_inside_total in *.
    destruct (PurePath.relative_to dst src); [done|].
    destruct Hne. by apply H.
Qed.

Lemma is_inside_spec_witness :
  is_inside (mkPath "/" ["data"; "src"; "dist"]) (mkPath "/" ["data"; "src"]) = inr true
  ∧ is_inside (mkPath "//" ["dist"]) (mkPath "/" []) = inr false.
Proof.
  split.
  - apply (is_inside_spec (mkPath "/" ["data"; "src"])
             (mkPath "/" ["data"; "src"; "dist"])); [discriminate..|].
    right. exists ["dist"]. split; [discriminate|reflexivity].
  - apply (is_inside_spec (mkPath "/" []) (mkPath "//" ["dist"]));
      discriminate.
Defined.

(** ** Running the monad *)

#[local] Opaque Posix.MAXSYMLINKS.

Lemma bind_unfold {A B} (m : M A) (f : A → M B) w :
  (m ≫= f) w = match m w with
               | (inr x, w') => f x w'
               | (inl e, w') => (inl e, w')
               end.
Proof. reflexivity. Qed.

Lemma bind_inv {A B} (m : M A) (f : A → M B) w r w' :
  (m ≫= f) w = (r, w') →
  (∃ e, m w = (inl e, w') ∧ r = inl e)
  ∨ (∃ x w1, m w = (inr x, w1) ∧ f x w1 = (r, w')).
Proof.
  rewrite bind_unfold. destruct (m w) as [[e|x] w1]; intros H.
  - left. exists e. by inversion H.
  - right. by exists x, w1.
Qed.

Lemma try_except_inv {A} (body : M A) handler w (r : exn + A) w' :
  try_except body handler w = (r, w') →
  (∃ x, body w = (inr x, w') ∧ r = inr x)
  ∨ (∃ e w1, body w = (inl e, w1) ∧
       match handler e with
       | Some h => h w1 = (r, w')
       | None => r = inl e ∧ w' = w1
       end).
Proof.
  unfold try_except. destruct (body w) as [[e|x] w1]; intros H.
  - right. exists e, w1. split; [done|].
    destruct (handler e); [done|]. by inversion H.
  - left. exists x. by inversion H.
Qed.

Lemma grows_refl w : grows w w (w_fs w) [] [] [] [].
Proof. unfold grows. destruct w; simpl. by rewrite !app_nil_r. Qed.

Lemma grows_trans w w1 w2 fs1 o1 e1 f1 c1 fs2 o2 e2 f2 c2 :
  grows w w1 fs1 o1 e1 f1 c1 → grows w1 w2 fs2 o2 e2 f2 c2 →
  grows w w2 fs2 (o1 ++ o2) (e1 ++ e2) (f1 ++ f2) (c1 ++ c2).
Proof. unfold grows. intros -> ->. simpl. by rewrite !app_assoc. Qed.

Lemma grows_fs w w' fs' o e f c : grows w w' fs' o e f c → w_fs w' = fs'.
Proof. by intros ->. Qed.

Lemma grows_cwd w w' fs' o e f c : grows w w' fs' o e f c → w_cwd w' = w_cwd w.
Proof. by intros ->. Qed.

Lemma print_run ev w r w' :
  print ev w = (r, w') → r = inr tt ∧ grows w w' (w_fs w) [ev] [] [] [].
Proof.
  unfold print, grows. intros [= <- <-]. destruct w; simpl.
  by rewrite !app_nil_r.
Qed.

Lemma warn_run msg w r w' :
  warn msg w = (r, w') → r = inr tt ∧ grows w w' (w_fs w) [] [msg] [] [].
Proof.
  unfold warn, grows. intros [= <- <-]. destruct w; simpl.
  by rewrite !app_nil_r.
Qed.

Lemma log_call_run c w r w' :
  log_call c w = (r, w') → r = inr tt ∧ grows w w' (w_fs w) [] [] [] [c].
Proof.
  unfold log_call, grows. intros [= <- <-]. destruct w; simpl.
  by rewrite !app_nil_r.
Qed.

Lemma out_append_run item w r w' :
  out_append item w = (r, w') → r = inr tt ∧ grows w w' (w_fs w) [] [] [item] [].
Proof.
  unfold out_append, grows. intros [= <- <-]. destruct w; simpl.
  by rewrite !app_nil_r.
Qed.

Lemma OSError_of_is_OSError e : is_OSError (Posix.OSError_of e) = true.
Proof. by destruct e. Qed.

(** The queries of [pathlib] read the disk and the working directory and
    nothing else. *)
Lemma is_dir_run p w r w' :
  PathIO.is_dir p w = (r, w') →
  w' = w ∧ (∀ e, r = inl e → is_OSError e = true)
  ∧ ∀ w2, w_fs w2 = w_fs w → w_cwd w2 = w_cwd w → PathIO.is_dir p w2 = (r, w2).
Proof.
  unfold PathIO.is_dir, PathIO.os_path. intros H. split_and!.
  - repeat case_match; by inversion H.
  - intros e ->. repeat case_match; inversion H; apply OSError_of_is_OSError.
  - intros w2 -> ->. repeat case_match; by inversion H.
Qed.

Lemma is_file_run p w r w' :
  PathIO.is_file p w = (r, w') →
  w' = w ∧ (∀ e, r = inl e → is_OSError e = true)
  ∧ ∀ w2, w_fs w2 = w_fs w → w_cwd w2 = w_cwd w → PathIO.is_file p w2 = (r, w2).
Proof.
  unfold PathIO.is_file, PathIO.os_path. intros H. split_and!.
  - repeat case_match; by inversion H.
  - intros e ->. repeat case_match; inversion H; apply OSError_of_is_OSError.
  - intros w2 -> ->. repeat case_match; by inversion H.
Qed.

Lemma exists_run p w r w' :
  PathIO.exists_ p w = (r, w') →
  w' = w ∧ (∀ e, r = inl e → is_OSError e = true).
Proof.
  unfold PathIO.exists_. intros H. split.
  - repeat case_match; by inversion H.
  - intros e ->. repeat case_match; inversion H; apply OSError_of_is_OSError.
Qed.

Lemma resolve_run p w r w' :
  PathIO.resolve p w = (r, w') →
  w' = w ∧ (∀ q, r = inr q → anchor q = "/")
  ∧ ∀ w2, w_fs w2 = w_fs w → w_cwd w2 = w_cwd w → PathIO.resolve p w2 = (r, w2).
Proof.
  unfold PathIO.resolve, PathIO.os_path. intros H. split_and!.
  - repeat case_match; by inversion H.
  - intros q ->. repeat case_match; by inversion H.
  - intros w2 -> ->. repeat case_match; by inversion H.
Qed.

Lemma is_skipped_run skip item w r w' :
  is_skipped skip item w = (r, w') →
  w' = w
  ∧ ∀ w2, w_fs w2 = w_fs w → w_cwd w2 = w_cwd w → is_skipped skip item w2 = (r, w2).
Proof.
  unfold is_skipped. destruct skip as [sd|]; [|by intros [= <- <-]].
  intros H. apply bind_inv in H as [(e & H & ->)|(a & w1 & Ha & H)].
  - apply resolve_run in H as (-> & _ & Hp). split; [done|].
    intros w2 E1 E2. by rewrite bind_unfold, (Hp w2 E1 E2).
  - apply resolve_run in Ha as (-> & _ & Hpa).
    apply bind_inv in H as [(e & H & ->)|(b & w1 & Hb & H)].
    + apply resolve_run in H as (-> & _ & Hp). split; [done|].
      intros w2 E1 E2.
      by rewrite bind_unfold, (Hpa w2 E1 E2), bind_unfold, (Hp w2 E1 E2).
    + apply resolve_run in Hb as (-> & _ & Hpb). inversion H; subst.
      split; [done|]. intros w2 E1 E2.
      by rewrite bind_unfold, (Hpa w2 E1 E2), bind_unfold, (Hpb w2 E1 E2).
Qed.

(** [list(p.iterdir())] records the call and returns the entries of [p],
    or an [OSError]. *)
Lemma iterdir_run s p w r w' :
  PathIO.iterdir s p w = (r, w') →
  grows w w' (w_fs w) [] [] [] [SysListdir s p]
  ∧ ((∃ e, r = inl (Posix.OSError_of e)
           ∧ Posix.listdir (w_fs w) (PathIO.os_path w p) = inl e)
     ∨ (∃ names, r = inr (map (child p) names)
                 ∧ Posix.listdir (w_fs w) (PathIO.os_path w p) = inr names)).
Proof.
  unfold PathIO.iterdir. intros H.
  apply bind_inv in H as [(e & H & ->)|([] & w1 & Hl & H)];
    [by apply log_call_run in H as [? _]|].
  apply log_call_run in Hl as [_ Hg].
  assert (w_fs w1 = w_fs w ∧ PathIO.os_path w1 p = PathIO.os_path w p) as [E1 E2].
  { rewrite Hg. done. }
  rewrite E1, E2 in H.
  destruct (Posix.listdir (w_fs w) (PathIO.os_path w p)) as [e|names];
    inversion H; subst; (split; [done|]).
  - left. by exists e.
  - right. by exists names.
Qed.

(** ** The walker *)

Lemma walker_listing_run src w r w1 :
  walker_listing src w = (r, w1) →
  ∃ errs,
    grows w w1 (w_fs w) [] errs [] [SysListdir Walker src]
    ∧ ((r = inr None ∧ length errs = 1
        ∧ ∃ e, Posix.listdir (w_fs w) (PathIO.os_path w src) = inl e)
       ∨ (∃ names, r = inr (Some (map (child src) names)) ∧ errs = []
                   ∧ Posix.listdir (w_fs w) (PathIO.os_path w src) = inr names)).
Proof.
  unfold walker_listing. intros H.
  apply try_except_inv in H as [(x & H & ->)|(e & w2 & H & Hh)].
  - apply bind_inv in H as [(e & H & ?)|(entries & w2 & H & Hr)]; [done|].
    inversion Hr; subst.
    apply iterdir_run in H as [Hg [(e & ? & _)|(names & [= ->] & Hn)]]; [done|].
    exists []. split; [done|]. right. by exists names.
  - apply bind_inv in H as [(e' & H & [= <-])|(entries & w3 & _ & Hr)]; [|done].
    apply iterdir_run in H as [Hg [(e0 & [= ->] & He)|(names & ? & _)]]; [|done].
    assert (∃ msg, (warn msg ≫= λ _ : (), mret None) w2 = (r, w1)) as [msg Hw].
    { destruct (decide (Posix.OSError_of e0 = PermissionError)); [by eexists|].
      rewrite OSError_of_is_OSError in Hh. by eexists. }
    apply bind_inv in Hw as [(e' & Hw & _)|([] & w3 & Hw & Hr)];
      [by apply warn_run in Hw as [? _]|].
    apply warn_run in Hw as [_ Hw]. inversion Hr; subst.
    exists [msg]. split.
    + pose proof (grows_trans _ _ _ _ _ _ _ _ _ _ _ _ _ Hg Hw) as Ht.
      by rewrite (grows_fs _ _ _ _ _ _ _ Hg) in Ht.
    + left. split_and!; [done..|]. by exists e0.
Qed.

Lemma ioerror_handler_run denied other p e :
  match ioerror_handler denied other p e with
  | Some h => is_OSError e = true ∧ ∃ msg, h = warn msg
  | None => is_OSError e = false
  end.
Proof.
  unfold ioerror_handler. destruct (decide (e = PermissionError)) as [->|];
    [by eauto|].
  destruct (is_OSError e); [by eauto|done].
Qed.

Section WalkerInvariant.

Variables (skip : option Path) (fs : Posix.FS) (cwd : list string).
Variables I J : Path → Prop.

Hypothesis Hstep : ∀ d n w1 w2,
  I d → w_fs w1 = fs → w_cwd w1 = cwd →
  is_skipped skip (child d n) w1 = (inr false, w2) →
  I (child d n) ∧ J (child d n).

#[local] Abbreviation walk_post := (walk_post fs I J).

Lemma walk_post_refl w : w_fs w = fs → walk_post w w.
Proof.
  intros Hfs. exists [], [], []. split; [rewrite <- Hfs; apply grows_refl|done].
Qed.

Lemma walk_post_trans w w1 w2 :
  walk_post w w1 → walk_post w1 w2 → walk_post w w2.
Proof.
  intros (e1 & f1 & c1 & H1 & Hf1 & Hc1) (e2 & f2 & c2 & H2 & Hf2 & Hc2).
  exists (e1 ++ e2), (f1 ++ f2), (c1 ++ c2). split_and!.
  - apply (grows_trans _ _ _ _ _ _ _ _ _ _ _ _ _ H1 H2).
  - by apply Forall_app.
  - by apply Forall_app.
Qed.

Lemma walk_post_fs w w' : walk_post w w' → w_fs w' = fs ∧ w_cwd w' = w_cwd w.
Proof. by intros (? & ? & ? & -> & _). Qed.

Lemma walker_item_invariant (recurse : Path → M unit) :
  (∀ item w r w', w_fs w = fs → w_cwd w = cwd → I item →
                  recurse item w = (r, w') → walk_post w w') →
  ∀ d n w r w',
    w_fs w = fs → w_cwd w = cwd → I d →
    walker_item recurse skip (child d n) w = (r, w') → walk_post w w'.
Proof.
  intros Hrec d n w r w' Hfs Hcwd Hd H. unfold walker_item in H.
  apply bind_inv in H as [(e & H & ->)|(skipped & w1 & Hs & H)].
  { apply is_skipped_run in H as [-> _]. by apply walk_post_refl. }
  pose proof Hs as Hs'. apply is_skipped_run in Hs' as [-> _].
  destruct skipped.
  { inversion H; subst r w'. by apply walk_post_refl. }
  pose proof (Hstep d n w w Hd Hfs Hcwd Hs) as [Hitem HJ].
  assert (∀ w0 (r0 : exn + ()) w0',
            (PathIO.is_dir (child d n) ≫= λ d0 : bool,
               if d0 then recurse (child d n)
               else PathIO.is_file (child d n) ≫= λ f : bool,
                    if f then out_append (child d n) else mret tt) w0 = (r0, w0') →
            w_fs w0 = fs → w_cwd w0 = cwd → walk_post w0 w0') as Hbody.
  { intros w0 r0 w0' Hb Hfs0 Hcwd0.
    apply bind_inv in Hb as [(e & Hb & ->)|(isd & w2 & Hd2 & Hb)].
    { apply is_dir_run in Hb as [-> _]. by apply walk_post_refl. }
    apply is_dir_run in Hd2 as [-> _]. destruct isd.
    { by apply (Hrec _ _ _ _ Hfs0 Hcwd0 Hitem Hb). }
    apply bind_inv in Hb as [(e & Hb & ->)|(isf & w2 & Hf2 & Hb)].
    { apply is_file_run in Hb as [-> _]. by apply walk_post_refl. }
    apply is_file_run in Hf2 as [-> _]. destruct isf.
    - apply out_append_run in Hb as [_ Hg]. rewrite Hfs0 in Hg.
      exists [], [child d n], []. split_and!; [done| |done].
      by constructor.
    - inversion Hb; subst r0 w0'. by apply walk_post_refl. }
  apply try_except_inv in H as [(x & H & ->)|(e & w1 & H & Hh)].
  { by apply (Hbody _ _ _ H). }
  pose proof (Hbody _ _ _ H Hfs Hcwd) as Hp1.
  pose proof (ioerror_handler_run "Немає доступу: " "Помилка читання: " (child d n) e) as Hio.
  destruct (ioerror_handler _ _ _ e) as [h|].
  - destruct Hio as [_ [msg ->]]. apply warn_run in Hh as [_ Hg].
    apply (walk_post_trans _ _ _ Hp1).
    rewrite (proj1 (walk_post_fs _ _ Hp1)) in Hg.
    exists [msg], [], []. by split_and!.
  - by destruct Hh as [_ ->].
Qed.

Lemma walker_loop_invariant (recurse : Path → M unit) :
  (∀ item w r w', w_fs w = fs → w_cwd w = cwd → I item →
                  recurse item w = (r, w') → walk_post w w') →
  ∀ d names w r w',
    w_fs w = fs → w_cwd w = cwd → I d →
    for_each (map (child d) names) (walker_item recurse skip) w = (r, w') →
    walk_post w w'.
Proof.
  intros Hrec d names. induction names as [|n names IHn];
    intros w r w' Hfs Hcwd Hd H; simpl in H.
  - inversion H; subst r w'. by apply walk_post_refl.
  - apply bind_inv in H as [(e & H & ->)|([] & w1 & H1 & H)].
    + by apply (walker_item_invariant recurse Hrec d n w _ _ Hfs Hcwd Hd H).
    + pose proof (walker_item_invariant recurse Hrec d n w _ _ Hfs Hcwd Hd H1) as Hp.
      apply (walk_post_trans _ _ _ Hp).
      destruct (walk_post_fs _ _ Hp) as [E1 E2].
      apply (IHn w1 r w'); [done|congruence|done|done].
Qed.

Lemma collect_invariant limit : ∀ src w r w',
  w_fs w = fs → w_cwd w = cwd → I src →
  collect_files_recursive limit src skip w = (r, w') →
  walk_post w w'.
Proof.
  induction limit as [|depth IH]; intros src w r w' Hfs Hcwd HI H.
  - inversion H; subst r w'. by apply walk_post_refl.
  - cbn [collect_files_recursive] in H.
    assert (∀ r1 w1, walker_listing src w = (r1, w1) → walk_post w w1) as Hlist.
    { intros r1 w1 Hl. apply walker_listing_run in Hl as (errs & Hg & _).
      rewrite Hfs in Hg. exists errs, [], [SysListdir Walker src].
      split_and!; [done..|]. constructor; [|done]. by exists src. }
    apply bind_inv in H as [(e & H & ->)|(listing & w1 & Hl & H)].
    + by apply (Hlist _ _ H).
    + pose proof (Hlist _ _ Hl) as Hp. apply (walk_post_trans _ _ _ Hp).
      destruct (walk_post_fs _ _ Hp) as [E1 E2].
      apply walker_listing_run in Hl as (errs & _ & [([= ->] & _)|(names & [= ->] & _)]).
      * inversion H; subst r w'. by apply walk_post_refl.
      * apply (walker_loop_invariant _ (λ item w r w', IH item w r w') src names w1 r w');
          [done|congruence|done|done].
Qed.

(** Depth of the recursion: when no directory of [I] lies [L] components
    deep or deeper, a walk that starts with room for the levels above [L]
    does not exhaust the recursion limit. *)
Variable L : nat.

Hypothesis Hdeep : ∀ p w1,
  I p → w_fs w1 = fs → w_cwd w1 = cwd → (L ≤ length (parts p))%nat →
  PathIO.is_dir p w1 ≠ (inr true, w1).

Lemma resolve_raises p w e w' :
  PathIO.resolve p w = (inl e, w') → e = RuntimeError.
Proof. unfold PathIO.resolve. intros H. repeat case_match; by inversion H. Qed.

Lemma is_skipped_raises item w e w' :
  is_skipped skip item w = (inl e, w') → e = RuntimeError.
Proof.
  unfold is_skipped. destruct skip as [sd|]; [|done]. intros H.
  apply bind_inv in H as [(e' & H & [= <-])|(a & w1 & _ & H)];
    [by apply resolve_raises in H|].
  apply bind_inv in H as [(e' & H & [= <-])|(b & w2 & _ & H)];
    [by apply resolve_raises in H|done].
Qed.

Lemma walker_item_depth (recurse : Path → M unit) d n :
  (∀ w r w', w_fs w = fs → w_cwd w = cwd → I (child d n) →
             (length (parts (child d n)) < L)%nat →
             recurse (child d n) w = (r, w') → r ≠ inl RecursionError) →
  ∀ w r w',
    w_fs w = fs → w_cwd w = cwd → I d →
    walker_item recurse skip (child d n) w = (r, w') → r ≠ inl RecursionError.
Proof.
  intros Hrec w r w' Hfs Hcwd Hd H. unfold walker_item in H.
  apply bind_inv in H as [(e & H & ->)|(skipped & w1 & Hs & H)].
  { apply is_skipped_raises in H as ->. done. }
  pose proof Hs as Hs'. apply is_skipped_run in Hs' as [-> _].
  destruct skipped; [by inversion H|].
  pose proof (Hstep d n w w Hd Hfs Hcwd Hs) as [Hitem HJ].
  apply try_except_inv in H as [(x & H & ->)|(e & w1 & H & Hh)]; [done|].
  pose proof (ioerror_handler_run "Немає доступу: " "Помилка читання: " (child d n) e) as Hio.
  destruct (ioerror_handler _ _ _ e) as [h|].
  { destruct Hio as [_ [msg ->]]. by apply warn_run in Hh as [-> _]. }
  destruct Hh as [-> ->].
  apply bind_inv in H as [(e' & Hb & [= <-])|(isd & w2 & Hd2 & Hb)].
  { apply is_dir_run in Hb as (_ & He & _). rewrite (He e) in Hio; done. }
  pose proof Hd2 as Hd2'. apply is_dir_run in Hd2' as [-> _]. destruct isd.
  - apply (Hrec w (inl e) w1 Hfs Hcwd Hitem); [|done].
    destruct (decide (length (parts (child d n)) < L)%nat) as [|Hge]; [done|].
    destruct (Hdeep (child d n) w Hitem Hfs Hcwd); [lia|done].
  - apply bind_inv in Hb as [(e' & Hb & [= <-])|(isf & w2 & Hf2 & Hb)].
    + apply is_file_run in Hb as (_ & He & _). rewrite (He e) in Hio; done.
    + apply is_file_run in Hf2 as [-> _]. destruct isf; [|done].
      by apply out_append_run in Hb as [? _].
Qed.

Lemma collect_depth limit : ∀ src w r w',
  w_fs w = fs → w_cwd w = cwd → I src →
  (L ≤ length (parts src) + limit)%nat → (0 < limit)%nat →
  collect_files_recursive limit src skip w = (r, w') →
  r ≠ inl RecursionError.
Proof.
  induction limit as [|depth IH]; intros src w r w' Hfs Hcwd HI HL Hpos H;
    [lia|].
  cbn [collect_files_recursive] in H.
  apply bind_inv in H as [(e & H & ->)|(listing & w1 & Hl & H)].
  { by apply walker_listing_run in H as (? & _ & [(? & _)|(? & ? & _)]). }
  apply walker_listing_run in Hl as (errs & Hg & [([= ->] & _)|(names & [= ->] & _)]);
    [by inversion H|].
  assert (w_fs w1 = fs ∧ w_cwd w1 = cwd) as [Hfs1 Hcwd1].
  { rewrite Hg. simpl. done. }
  clear Hg. revert w1 r w' Hfs1 Hcwd1 H.
  induction names as [|n names IHn]; intros w1 r w' Hfs1 Hcwd1 H; simpl in H;
    [by inversion H|].
  assert (∀ w r w', w_fs w = fs → w_cwd w = cwd → I (child src n) →
            (length (parts (child src n)) < L)%nat →
            collect_files_recursive depth (child src n) skip w = (r, w') →
            r ≠ inl RecursionError) as Hrec.
  { intros w0 r0 w0' Hfs0 Hcwd0 HI0 Hlen. simpl in Hlen.
    rewrite length_app in Hlen. simpl in Hlen.
    apply IH; [done..| |lia]. simpl. rewrite length_app. simpl. lia. }
  apply bind_inv in H as [(e & H & ->)|([] & w2 & H1 & H)].
  - by apply (walker_item_depth _ src n Hrec w1 _ _ Hfs1 Hcwd1 HI H).
  - assert (walk_post w1 w2) as Hp.
    { apply (walker_item_invariant
               (λ item, collect_files_recursive depth item skip)
               (λ item w r w', collect_invariant depth item w r w')
               src n w1 _ _ Hfs1 Hcwd1 HI H1). }
    destruct (walk_post_fs _ _ Hp) as [E1 E2].
    apply (IHn w2 r w'); [done|congruence|done].
Qed.

End WalkerInvariant.

(** ** The skip test of the walker *)

Lemma is_skipped_false sd item w w2 :
  is_skipped (Some sd) item w = (inr false, w2) →
  ∃ a b, PathIO.resolve item w = (inr a, w) ∧ PathIO.resolve sd w = (inr b, w)
         ∧ a ≠ b.
Proof.
  unfold is_skipped. intros H.
  apply bind_inv in H as [(e & _ & ?)|(a & w1 & Ha & H)]; [done|].
  pose proof Ha as Ha'. apply resolve_run in Ha' as [-> _].
  apply bind_inv in H as [(e & _ & ?)|(b & w1 & Hb & H)]; [done|].
  pose proof Hb as Hb'. apply resolve_run in Hb' as [-> _].
  exists a, b. split_and!; [done..|].
  inversion H as [[Hd Hw]]. by apply bool_decide_eq_false in Hd.
Qed.

(** C9. In a walk with the skip directory [sd], an entry whose resolved
    path is the resolved path of [sd] is never collected and never listed
    (the root of the walk is listed whatever it resolves to, it is not an
    entry).  In the sample tree the link [shortcut] to the destination
    resolves to it, and the walk from [src] collects nothing through
    either name. *)
Theorem skip_test_uses_resolved_paths :
  (∀ limit src sd w,
     let w' := (collect_files_recursive limit src (Some sd) w).2 in
     ∃ errs files calls,
       grows w w' (w_fs w) [] errs files calls
       ∧ (∀ p a, PathIO.resolve p w = (inr a, w) →
                 PathIO.resolve sd w = (inr a, w) →
                 (p ∉ files) ∧ (SysListdir Walker p ∈ calls → p = src)))
  ∧ (let w := initial_world Sample.nested [] in
     PathIO.resolve Sample.shortcut w = PathIO.resolve Sample.dist w
     ∧ Sample.shortcut ≠ Sample.dist
     ∧ collect_files_recursive 1000 Sample.src (Some Sample.dist) w
       = (inr tt,
          World Sample.nested [] [] []
            [mkPath "/" ["data"; "src"; "a.txt"];
             mkPath "/" ["data"; "src"; "sub"; "b.JPG"]]
            [SysListdir Walker Sample.src;
             SysListdir Walker (mkPath "/" ["data"; "src"; "sub"])])).
Proof.
  split; [|by vm_compute].
  intros limit src sd w w'. subst w'.
  destruct (collect_files_recursive limit src (Some sd) w) as [r w'] eqn:H.
  simpl.
  pose (J := λ p, ∃ a b, PathIO.resolve p w = (inr a, w)
                         ∧ PathIO.resolve sd w = (inr b, w) ∧ a ≠ b).
  destruct (collect_invariant (Some sd) (w_fs w) (w_cwd w)
              (λ d, d = src ∨ J d) J) with (limit := limit) (src := src)
              (w := w) (r := r) (w' := w')
    as (errs & files & calls & Hg & Hf & Hc); [|done|done|by left|done|].
  { intros d n w1 w2 _ Hfs Hcwd Hs.
    apply is_skipped_run in Hs as [-> Hs]. specialize (Hs w).
    apply is_skipped_false in Hs; [|done..]. split; [by right|done]. }
  exists errs, files, calls. split; [done|]. intros p a Hp Hsd. split.
  - intros Hin. rewrite Forall_forall in Hf.
    destruct (Hf p Hin) as (a' & b' & Ha' & Hb' & Hne). congruence.
  - intros Hin. rewrite Forall_forall in Hc.
    destruct (Hc _ Hin) as (d & [= <-] & [->|(a' & b' & Ha' & Hb' & Hne)]);
      [done|congruence].
Qed.

(** ** The path walk of the file system *)

Section Namei.

Import Posix.

Lemma namei_nil (links : nat) (fs : FS) (cur : list string) :
  namei links fs cur [] = inr cur.
Proof. by destruct links. Qed.

Lemma namei_cons (links : nat) (fs : FS) (cur : list string) (name : string)
  (rest : list string) :
  namei links fs cur (name :: rest)
  = match dir_mode fs cur with
    | None => inl ENOTDIR
    | Some m =>
        if negb (m_x m) then inl EACCES
        else if decide (name = "..") then namei links fs (removelast cur) rest
        else
          match fs !! (cur ++ [name]) with
          | None => inl ENOENT
          | Some (Link t) =>
              match links with
              | O => inl ELOOP
              | S l => namei l fs [] (t ++ rest)
              end
          | Some _ => namei links fs (cur ++ [name]) rest
          end
    end.
Proof. by destruct links. Qed.

Lemma dir_mode_insert (fs : FS) (k : list string) (v : inode) (cur : list string) :
  vacant fs k →
  dir_mode fs cur = None ∨ dir_mode (<[k := v]> fs) cur = dir_mode fs cur.
Proof.
  intros Hk. unfold dir_mode, inode_at. destruct cur as [|c cur]; [by right|].
  destruct (decide (k = c :: cur)) as [<-|Hne].
  - left. by destruct Hk as [-> | (m & d & t & ->)].
  - right. by rewrite lookup_insert_ne.
Qed.

Lemma namei_through_file (links : nat) (fs : FS) (k : list string)
  (m : mode) (d : string) (t : Z) (rest : list string) (q : list string) :
  fs !! k = Some (File m d t) → k ≠ [] →
  namei links fs k rest = inr q → rest = [] ∧ q = k.
Proof.
  intros Hk Hne. destruct rest as [|n rest].
  - rewrite namei_nil. by intros [= <-].
  - rewrite namei_cons. unfold dir_mode, inode_at.
    destruct k; [done|]. by rewrite Hk.
Qed.

(** Writing a file or a directory at a path that was free or held a file
    does not disturb a walk that succeeded. *)
Lemma namei_insert (fs : FS) (k : list string) (v : inode) :
  vacant fs k → not_link v →
  ∀ links cur rest q,
    namei links fs cur rest = inr q →
    namei links (<[k := v]> fs) cur rest = inr q.
Proof.
  intros Hk Hv links.
  induction links as [|l IHl]; intros cur rest; revert cur;
    (induction rest as [|name rest IH]; intros cur q; [by rewrite !namei_nil|]);
    rewrite !namei_cons;
    (destruct (dir_mode_insert fs k v cur Hk) as [-> | ->]; [done|]);
    (destruct (dir_mode fs cur) as [m|]; [|done]);
    (destruct (negb (m_x m)); [done|]);
    (destruct (decide (name = "..")); [apply IH|]);
    (destruct (decide (k = cur ++ [name])) as [-> | Hne];
     [ rewrite lookup_insert_eq;
       destruct Hk as [-> | (m' & d & t & Hf)]; [done|];
       rewrite Hf; intros Hw;
       apply (namei_through_file _ _ _ _ _ _ _ _ Hf) in Hw as [-> ->];
         [|by destruct cur];
       destruct v; try done; by rewrite namei_nil
     | rewrite lookup_insert_ne by done;
       destruct (fs !! (cur ++ [name])) as [[]|]; try done;
       solve [apply IH | apply IHl] ]).
Qed.

(** Walking one more component that is not a link. *)
Lemma namei_snoc (fs : FS) (n : string) (q : list string) (R : errno + list string) :
  (∀ l, namei l fs q [n] = R) →
  ∀ links cur rest,
    namei links fs cur rest = inr q →
    namei links fs cur (rest ++ [n]) = R.
Proof.
  intros HR links.
  induction links as [|l IHl]; intros cur rest; revert cur;
    (induction rest as [|name rest IH]; intros cur;
     [rewrite namei_nil; intros [= ->]; apply HR|]);
    rewrite <- app_comm_cons, !namei_cons;
    (destruct (dir_mode fs cur) as [m|]; [|done]);
    (destruct (negb (m_x m)); [done|]);
    (destruct (decide (name = "..")); [apply IH|]);
    (destruct (fs !! (cur ++ [name])) as [[]|]; try done;
     try apply IH).
  rewrite app_assoc. apply IHl.
Qed.

End Namei.

(** ** What [mkdir] and [copy2] do to the file system *)

Section FsEffects.

Import Posix.

Lemma removelast_last (p : list string) :
  p ≠ [] → p = removelast p ++ [List.last p ""].
Proof. intros Hp. by apply app_removelast_last. Qed.

(** One more component, an existing file or directory. *)
Lemma namei_step (fs : FS) (q : list string) (n : string) (dm : mode) (i : inode) :
  dir_mode fs q = Some dm → m_x dm = true → n ≠ ".." →
  fs !! (q ++ [n]) = Some i → not_link i →
  ∀ l, namei l fs q [n] = inr (q ++ [n]).
Proof.
  intros Hd Hx Hn Hi Hl l. rewrite namei_cons, Hd, Hx. cbn [negb].
  rewrite decide_False by done. rewrite Hi.
  destruct i; try done; apply namei_nil.
Qed.

Lemma namei_step_missing (fs : FS) (q : list string) (n : string) (dm : mode) :
  dir_mode fs q = Some dm → m_x dm = true → n ≠ ".." →
  fs !! (q ++ [n]) = None →
  ∀ l, namei l fs q [n] = inl ENOENT.
Proof.
  intros Hd Hx Hn Hi l. rewrite namei_cons, Hd, Hx. cbn [negb].
  rewrite decide_False by done. by rewrite Hi.
Qed.

Lemma namei_step_up (fs : FS) (q : list string) (dm : mode) :
  dir_mode fs q = Some dm → m_x dm = true →
  ∀ l, namei l fs q [".."] = inr (removelast q).
Proof.
  intros Hd Hx l. rewrite namei_cons, Hd, Hx. cbn [negb].
  destruct (decide (".." = "..")); [apply namei_nil|done].
Qed.

(** [os.mkdir] creates one directory at a free path, and [p] then leads
    to it. *)
Lemma mkdir_spec (fs fs' : FS) (p : list string) :
  mkdir fs p = inr fs' →
  ∃ k, fs !! k = None ∧ k ≠ [] ∧ fs' = <[k := Dir rwx]> fs
       ∧ namei MAXSYMLINKS fs' [] p = inr k.
Proof.
  unfold mkdir. destruct p as [|c p]; [done|].
  set (path := c :: p). assert (path ≠ []) as Hp by done. clearbody path.
  pose proof (removelast_last path Hp) as Hsplit.
  set (n := List.last path "") in *. set (par := removelast path) in *.
  clearbody n par. subst path.
  destruct (namei MAXSYMLINKS fs [] par) as [|q] eqn:Hq; [done|].
  destruct (dir_mode fs q) as [dm|] eqn:Hd; [|done].
  destruct (m_x dm) eqn:Hx; [|done]. cbn [negb].
  destruct (decide (n = "..")) as [|Hn]; [done|].
  destruct (fs !! (q ++ [n])) eqn:Hk; [done|].
  destruct (m_w dm); [|done]. intros [= <-].
  exists (q ++ [n]). split_and!; [done|by destruct q|done|].
  apply namei_snoc with (q := q).
  - apply namei_step with (dm := dm) (i := Dir rwx); [|done|done| |done].
    + destruct (dir_mode_insert fs (q ++ [n]) (Dir rwx) q)
        as [E | E]; [by left|congruence|by rewrite E].
    + apply lookup_insert_eq.
  - apply namei_insert; [by left|done|done].
Qed.

Lemma mkdir_stat (fs fs' : FS) (p : list string) :
  mkdir fs p = inr fs' → stat fs' p = inr (Dir rwx).
Proof.
  intros (k & _ & Hne & -> & Hn)%mkdir_spec. unfold stat. rewrite Hn.
  unfold inode_at. destruct k; [done|]. by rewrite lookup_insert_eq.
Qed.

(** [shutil.copy2] writes the content and the metadata of the source at
    one physical path, which was free or held a file; the destination,
    or the entry named after the source inside it when the destination
    is a directory, then leads to the copy. *)
Lemma copy2_spec (fs fs' : FS) (s t : list string) :
  copy2 fs s t = inr fs' →
  let landing := if isdir fs t then t ++ [List.last s ""] else t in
  ∃ q m d mt,
    read_file fs s = inr (m, d, mt)
    ∧ vacant fs q ∧ q ≠ []
    ∧ fs' = <[q := File m d mt]> fs
    ∧ namei MAXSYMLINKS fs' [] landing = inr q
    ∧ read_file fs' landing = inr (m, d, mt).
Proof.
  intros H landing. unfold copy2 in H. fold landing in H.
  destruct (samefile fs s landing); [done|].
  destruct (read_file fs s) as [|[[m d] mt]] eqn:Hr; [done|].
  destruct (write_target fs landing) as [|q] eqn:Hw; [done|].
  injection H as <-.
  assert (m_r m = true) as Hmr.
  { unfold read_file in Hr. destruct (stat fs s) as [|[]]; try done.
    destruct (m_r m0) eqn:E; [|done]. by injection Hr as -> _ _. }
  assert (vacant fs q ∧ q ≠ []
          ∧ namei MAXSYMLINKS (<[q := File m d mt]> fs) [] landing = inr q)
    as (Hv & Hne & Hn).
  { unfold write_target in Hw.
    destruct (namei MAXSYMLINKS fs [] landing) as [e|q0] eqn:Hq.
    - destruct e; try done. clearbody landing.
      destruct landing as [|c l]; [done|].
      set (path := c :: l) in *. assert (path ≠ []) as Hp by done.
      clearbody path.
      pose proof (removelast_last path Hp) as Hsplit.
      set (n := List.last path "") in *. set (par := removelast path) in *.
      clearbody n par. subst path.
      destruct (namei MAXSYMLINKS fs [] par) as [|P] eqn:HP; [done|].
      destruct (dir_mode fs P) as [dm|] eqn:Hd; [|done].
      destruct (m_x dm) eqn:Hx; [|done]. cbn [negb] in Hw.
      destruct (fs !! (P ++ [n])) eqn:Hk; [done|].
      destruct (m_w dm); [|done]. injection Hw as <-.
      assert (n ≠ "..") as Hdots.
      { intros ->.
        rewrite (namei_snoc fs ".." P (inr (removelast P))) in Hq; [done| |done].
        by apply namei_step_up with (dm := dm). }
      split_and!; [by left|by destruct P|].
      apply namei_snoc with (q := P).
      + apply namei_step with (dm := dm) (i := File m d mt); [|done|done| |done].
        * destruct (dir_mode_insert fs (P ++ [n])
                      (File m d mt) P) as [E | E]; [by left|congruence|by rewrite E].
        * apply lookup_insert_eq.
      + apply namei_insert; [by left|done|done].
    - destruct (inode_at fs q0) as [[m0 d0 t0| |]|] eqn:Hi; try done.
      destruct (m_w m0); [|done]. injection Hw as <-.
      assert (q0 ≠ []) as Hne by (intros ->; done).
      assert (vacant fs q0) as Hv.
      { right. exists m0, d0, t0. unfold inode_at in Hi. by destruct q0. }
      split_and!; [done..|]. by apply namei_insert. }
  exists q, m, d, mt. split_and!; [done..|].
  unfold read_file, stat. rewrite Hn. unfold inode_at.
  destruct q; [done|]. rewrite lookup_insert_eq. by rewrite Hmr.
Qed.

End FsEffects.

(** ** Creating directories and copying *)

Lemma dirs_added_trans fs1 fs2 fs3 :
  dirs_added fs1 fs2 → dirs_added fs2 fs3 → dirs_added fs1 fs3.
Proof.
  induction 1 as [|fs k fs' Hk _ IH]; [done|].
  intros H3. apply (dirs_added_one _ k); [done|]. by apply IH.
Qed.

Lemma os_mkdir_run p w r w' :
  PathIO.os_mkdir p w = (r, w') →
  (∃ e, r = inl (Posix.OSError_of e) ∧ w' = w)
  ∨ (r = inr tt ∧ mkdir_post p w r w').
Proof.
  unfold PathIO.os_mkdir, set_fs.
  destruct (Posix.mkdir (w_fs w) (PathIO.os_path w p)) as [e|fs'] eqn:Hm;
    intros [= <- <-].
  - left. by exists e.
  - right. split; [done|]. split_and!; [|done|].
    + exists fs'. split; [unfold grows; simpl; by rewrite !app_nil_r|].
      apply mkdir_spec in Hm as (k & Hk & _ & -> & _).
      apply (dirs_added_one _ k); [done|constructor].
    + intros _. apply mkdir_stat in Hm.
      unfold PathIO.is_dir, PathIO.os_path in *. simpl. by rewrite Hm.
Qed.

Lemma mkdir_post_raised p w e :
  is_OSError e = true → mkdir_post p w (inl e) w.
Proof.
  intros He. split_and!; [|by intros ? [= <-]|done].
  exists (w_fs w). split; [apply grows_refl|constructor].
Qed.

Lemma mkdir_exist_ok_run (exist_ok : bool) p e w r w' :
  is_OSError e = true →
  (d ← (if exist_ok then PathIO.is_dir p else mret false);
   if d : bool then mret tt else raise e) w = (r, w') →
  mkdir_post p w r w'.
Proof.
  intros He H.
  assert (∀ w0, mkdir_post p w0 (inr tt) w0 ↔ PathIO.is_dir p w0 = (inr true, w0))
    as Hok.
  { intros w0. split; [intros (_ & _ & Hd); by apply Hd|].
    intros Hd. split_and!; [|done|done].
    exists (w_fs w0). split; [apply grows_refl|constructor]. }
  apply bind_inv in H as [(e' & H & ->)|(d & w1 & Hd & H)].
  - destruct exist_ok; [|done]. apply is_dir_run in H as (-> & Ho & _).
    apply mkdir_post_raised. by apply Ho.
  - assert (w1 = w) as ->.
    { destruct exist_ok; [by apply is_dir_run in Hd as [-> _]|by inversion Hd]. }
    destruct d; inversion H; subst r w'.
    + apply Hok. destruct exist_ok; [done|by inversion Hd].
    + by apply mkdir_post_raised.
Qed.

Lemma mkdir_here_run exist_ok p w r w' :
  PathIO.mkdir_here exist_ok p w = (r, w') → mkdir_post p w r w'.
Proof.
  unfold PathIO.mkdir_here. intros H.
  apply try_except_inv in H as [(x & H & ->)|(e & w1 & H & Hh)].
  - by apply os_mkdir_run in H as [(? & ? & _)|[_ H]].
  - apply os_mkdir_run in H as [(e0 & [= ->] & ->)|[? _]]; [|done].
    destruct (decide (Posix.OSError_of e0 = FileNotFoundError)).
    { destruct Hh as [-> ->]. apply mkdir_post_raised, OSError_of_is_OSError. }
    rewrite OSError_of_is_OSError in Hh.
    apply mkdir_exist_ok_run in Hh; [done|apply OSError_of_is_OSError].
Qed.

Lemma mkdir_post_trans p0 p w w1 r w2 :
  mkdir_post p0 w (inr tt) w1 → mkdir_post p w1 r w2 → mkdir_post p w r w2.
Proof.
  intros [(fs1 & H1 & Hd1) _] ((fs2 & H2 & Hd2) & Hr & Hok).
  split_and!; [|done|done]. exists fs2. split.
  - apply (grows_trans _ _ _ _ _ _ _ _ _ _ _ _ _ H1 H2).
  - rewrite (grows_fs _ _ _ _ _ _ _ H1) in Hd2.
    by apply (dirs_added_trans _ _ _ Hd1).
Qed.

Lemma mkdir_parents_run n : ∀ exist_ok p w r w',
  PathIO.mkdir_parents n exist_ok p w = (r, w') → mkdir_post p w r w'.
Proof.
  induction n as [|n IH]; intros exist_ok p w r w' H; simpl in H;
    (apply try_except_inv in H as [(x & H & ->)|(e & w1 & H & Hh)];
     [by apply os_mkdir_run in H as [(? & ? & _)|[_ H]]|]);
    (apply os_mkdir_run in H as [(e0 & [= ->] & ->)|[? _]]; [|done]);
    (destruct (decide (Posix.OSError_of e0 = FileNotFoundError));
     [|rewrite OSError_of_is_OSError in Hh;
       apply mkdir_exist_ok_run in Hh; [done|apply OSError_of_is_OSError]]).
  - destruct Hh as [-> ->]. apply mkdir_post_raised, OSError_of_is_OSError.
  - destruct (decide (PurePath.parent p = p)).
    { destruct Hh as [-> ->]. apply mkdir_post_raised, OSError_of_is_OSError. }
    apply bind_inv in Hh as [(e' & Hh & ->)|([] & w2 & Hp & Hh)].
    + apply IH in Hh. destruct Hh as (Hg & Hr & _).
      split_and!; [done|done|done].
    + apply IH in Hp. apply mkdir_here_run in Hh.
      by apply (mkdir_post_trans _ _ _ _ _ _ Hp).
Qed.

(** [p.mkdir(parents=True, exist_ok=True)] records one call, adds
    directories only, raises nothing but [OSError], and returns with [p]
    a directory. *)
Lemma mkdir_run p w r w' :
  PathIO.mkdir p w = (r, w') →
  (∃ fs', grows w w' fs' [] [] [] [SysMkdir p] ∧ dirs_added (w_fs w) fs')
  ∧ (∀ e, r = inl e → is_OSError e = true)
  ∧ (r = inr tt → PathIO.is_dir p w' = (inr true, w')).
Proof.
  unfold PathIO.mkdir. intros H.
  apply bind_inv in H as [(e & H & ->)|([] & w1 & Hl & H)];
    [by apply log_call_run in H as [? _]|].
  apply log_call_run in Hl as [_ Hl].
  apply mkdir_parents_run in H as ((fs' & H & Hd) & Hr & Hok).
  split_and!; [|done|done].
  exists fs'. split; [apply (grows_trans _ _ _ _ _ _ _ _ _ _ _ _ _ Hl H)|].
  by rewrite (grows_fs _ _ _ _ _ _ _ Hl) in Hd.
Qed.

Lemma copy2_raises fs a b e : Posix.copy2 fs a b = inl e → is_OSError e = true.
Proof.
  unfold Posix.copy2. intros H.
  repeat case_match; inversion H; subst; try done; apply OSError_of_is_OSError.
Qed.

(** [shutil.copy2(src, dst)] records one call and runs the copy of the
    file system. *)
Lemma copy2_run s t w r w' :
  PathIO.copy2 s t w = (r, w') →
  (∃ e, r = inl e ∧ is_OSError e = true
        ∧ grows w w' (w_fs w) [] [] [] [SysCopy s t])
  ∨ (∃ fs', r = inr tt ∧ grows w w' fs' [] [] [] [SysCopy s t]
            ∧ Posix.copy2 (w_fs w) (PathIO.os_path w s) (PathIO.os_path w t)
              = inr fs').
Proof.
  unfold PathIO.copy2. intros H.
  apply bind_inv in H as [(e & H & ->)|([] & w1 & Hl & H)];
    [by apply log_call_run in H as [? _]|].
  apply log_call_run in Hl as [_ Hl].
  assert (w_fs w1 = w_fs w ∧ PathIO.os_path w1 s = PathIO.os_path w s
          ∧ PathIO.os_path w1 t = PathIO.os_path w t) as (E1 & E2 & E3).
  { by rewrite Hl. }
  rewrite E1, E2, E3 in H.
  destruct (Posix.copy2 (w_fs w) (PathIO.os_path w s) (PathIO.os_path w t))
    as [e|fs'] eqn:Hc.
  - inversion H; subst r w'. left. exists e. split_and!; [done| |done].
    by apply copy2_raises in Hc.
  - right. exists fs'. unfold set_fs in H. inversion H; subst r w'.
    split_and!; [done| |done]. rewrite Hl. unfold grows. simpl.
    by rewrite !app_nil_r.
Qed.

(** ** One pass of the copy loop *)

Lemma copy_one_run dst f w r w' :
  copy_one dst f w = (r, w') →
  r = inr tt ∧ attempt dst f w w'
  ∧ ∃ fs' errs calls,
      grows w w' fs' [] errs [] calls ∧ Forall (copy_call dst [f]) calls.
Proof.
  unfold copy_one. fold (target_dir dst f). fold (target_file dst f).
  intros H.
  assert (copy_call dst [f] (SysMkdir (target_dir dst f))) as Hc1.
  { exists f. split; [apply list_elem_of_singleton; done|by left]. }
  assert (copy_call dst [f] (SysCopy f (target_file dst f))) as Hc2.
  { exists f. split; [apply list_elem_of_singleton; done|by right]. }
  apply try_except_inv in H as [([] & H & ->)|(e & w1 & H & Hh)].
  - split; [done|].
    apply bind_inv in H as [(? & _ & ?)|([] & wm & Hm & H)]; [done|].
    pose proof Hm as Hm'. apply mkdir_run in Hm' as ((fsm & Hgm & Hdm) & _ & _).
    pose proof H as H'.
    apply copy2_run in H' as [(? & ? & _)|(fs' & _ & Hg & Hc)]; [done|].
    pose proof (grows_trans _ _ _ _ _ _ _ _ _ _ _ _ _ Hgm Hg) as Ht.
    split.
    + apply copy2_spec in Hc as (q & m & d & mt & Hr & Hv & Hq & Hfs & Hn & Hrd).
      assert (w_fs w' = fs') as Efs by (by rewrite Hg).
      apply (attempt_copied dst f w w' wm q m d mt).
      * exact Hm.
      * exact H.
      * rewrite (grows_fs _ _ _ _ _ _ _ Hgm). exact Hdm.
      * rewrite Ht. simpl. by rewrite app_nil_r.
      * exact Hr.
      * exact Hv.
      * exact Hq.
      * rewrite Efs. exact Hfs.
      * rewrite Efs. unfold landing. exact Hn.
      * rewrite Efs. unfold landing. exact Hrd.
    + exists fs', [], [SysMkdir (target_dir dst f); SysCopy f (target_file dst f)].
      split; [done|]. by repeat constructor.
  - assert (is_OSError e = true
            ∧ ∃ fs1 calls, grows w w1 fs1 [] [] [] calls
                           ∧ dirs_added (w_fs w) fs1
                           ∧ Forall (copy_call dst [f]) calls)
      as (He & fs1 & calls & Hg1 & Hd1 & Hcalls).
    { apply bind_inv in H as [(e' & Hm & [= <-])|([] & wm & Hm & H)].
      - apply mkdir_run in Hm as ((fsm & Hgm & Hdm) & Ho & _).
        split; [by apply Ho|]. exists fsm, [SysMkdir (target_dir dst f)].
        split_and!; [done..|]. by repeat constructor.
      - apply mkdir_run in Hm as ((fsm & Hgm & Hdm) & _ & _).
        apply copy2_run in H as [(e' & [= <-] & He & Hg)|(? & ? & _)]; [|done].
        split; [done|].
        exists fsm, [SysMkdir (target_dir dst f); SysCopy f (target_file dst f)].
        split_and!; [|done|by repeat constructor].
        pose proof (grows_trans _ _ _ _ _ _ _ _ _ _ _ _ _ Hgm Hg) as Ht.
        by rewrite (grows_fs _ _ _ _ _ _ _ Hgm) in Ht. }
    assert (∃ pre, warn (pre +:+ PurePath.str f) w1 = (r, w')) as [pre Hw].
    { destruct (decide (e = PermissionError)); [by eexists|].
      destruct (decide (e = FileNotFoundError)); [by eexists|].
      rewrite He in Hh. by eexists. }
    apply warn_run in Hw as [-> Hw].
    pose proof (grows_trans _ _ _ _ _ _ _ _ _ _ _ _ _ Hg1 Hw) as Ht.
    rewrite (grows_fs _ _ _ _ _ _ _ Hg1) in Ht. simpl in Ht.
    rewrite app_nil_r in Ht.
    split_and!; [done| |].
    + apply (attempt_warned dst f w w' pre); rewrite Ht; [done|by simpl].
    + by exists fs1, [pre +:+ PurePath.str f], calls.
Qed.

Lemma print_progress_bar_run i total w r w' :
  total ≠ 0%nat →
  print_progress_bar i total w = (r, w') →
  r = inr tt ∧ grows w w' (w_fs w) [EvProgress i total] [] [] [].
Proof.
  intros Ht. unfold print_progress_bar.
  destruct (Nat.eqb_spec total 0); [done|]. apply print_run.
Qed.

Lemma copy_call_mono dst f files c :
  f ∈ files → copy_call dst [f] c → copy_call dst files c.
Proof.
  intros Hf (f' & Hin & Hc). apply list_elem_of_singleton in Hin as ->.
  by exists f.
Qed.

(** The copy loop never stops early: it makes one attempt per file,
    prints one progress report per attempt, and returns. *)
Lemma copy_loop_run dst total delay files : ∀ i w r w',
  total ≠ 0%nat →
  copy_loop dst total delay i files w = (r, w') →
  r = inr tt ∧ batch dst total delay i files w w'
  ∧ ∃ fs' errs calls,
      grows w w' fs' (progress_out total delay i (length files)) errs [] calls
      ∧ Forall (copy_call dst files) calls.
Proof.
  induction files as [|f rest IH]; intros i w r w' Ht H; simpl in H.
  - inversion H; subst r w'. split_and!; [done|constructor|].
    exists (w_fs w), [], []. split; [apply grows_refl|done].
  - apply bind_inv in H as [(e & H & ->)|([] & w1 & H1 & H)];
      [by apply copy_one_run in H as [? _]|].
    pose proof H1 as H1'.
    apply copy_one_run in H1' as (_ & Hatt & fs1 & errs1 & calls1 & Hg1 & Hc1).
    apply bind_inv in H as [(e & H & ->)|([] & w2 & H2 & H)];
      [by apply print_progress_bar_run in H as [? _]|].
    apply print_progress_bar_run in H2 as [_ Hg2]; [|done].
    apply bind_inv in H as [(e & H & ->)|([] & w3 & H3 & H)];
      [by apply print_run in H as [? _]|].
    apply print_run in H3 as [_ Hg3].
    pose proof (grows_trans _ _ _ _ _ _ _ _ _ _ _ _ _ Hg2 Hg3) as Hg23.
    rewrite (grows_fs _ _ _ _ _ _ _ Hg2) in Hg23. simpl in Hg23.
    apply IH in H as (-> & Hb & fs' & errs & calls & Hg & Hc); [|done].
    split_and!; [done| |].
    + by apply (batch_step dst total delay i f rest w w1 w3 w').
    + pose proof (grows_trans _ _ _ _ _ _ _ _ _ _ _ _ _ Hg1 Hg23) as Hg13.
      pose proof (grows_trans _ _ _ _ _ _ _ _ _ _ _ _ _ Hg13 Hg) as Hall.
      exists fs', ((errs1 ++ []) ++ errs), ((calls1 ++ []) ++ calls).
      split; [exact Hall|].
      rewrite app_nil_r. apply Forall_app. split.
      * eapply Forall_impl; [exact Hc1|]. intros c. apply copy_call_mono.
        by left.
      * eapply Forall_impl; [exact Hc|]. intros c (f' & Hin & Hcc).
        exists f'. split; [by right|done].
Qed.

(** ** The order of the rendered entries *)

Lemma compare_antisym' a b : String.compare b a = CompOpp (String.compare a b).
Proof. exact (String_as_OT.cmp_antisym b a). Qed.

Lemma string_ltb_lt a b : String.ltb a b = true ↔ String_as_OT.lt a b.
Proof.
  unfold String.ltb. rewrite <- String_as_OT.cmp_lt. unfold String_as_OT.cmp.
  destruct (String.compare a b); split; congruence.
Qed.

Lemma string_ltb_asym a b : String.ltb a b = true → String.ltb b a = false.
Proof.
  unfold String.ltb. rewrite (compare_antisym' a b).
  by destruct (String.compare a b).
Qed.

Lemma string_nlt_cases a b : String.ltb b a = false → a = b ∨ String.ltb a b = true.
Proof.
  unfold String.ltb. rewrite (compare_antisym' a b).
  destruct (String.compare a b) eqn:E; simpl; try done.
  - left. by apply String_as_OT.cmp_eq.
  - by right.
Qed.

Lemma string_ltb_trans a b c :
  String.ltb a b = true → String.ltb b c = true → String.ltb a c = true.
Proof. rewrite !string_ltb_lt. apply String_as_OT.lt_trans. Qed.

Lemma string_ltb_irrefl a : String.ltb a a = false.
Proof.
  destruct (String.ltb a a) eqn:E; [|done].
  by rewrite (string_ltb_asym _ _ E) in E.
Qed.

Lemma key_lt_asym a b : key_lt a b = true → key_lt b a = false.
Proof.
  unfold key_lt. destruct a as [[] sa], b as [[] sb]; simpl; try done;
    apply string_ltb_asym.
Qed.

Lemma key_le_trans a b c : key_le a b → key_le b c → key_le a c.
Proof.
  unfold key_le, key_lt.
  destruct a as [[] sa], b as [[] sb], c as [[] sc]; simpl; try done;
    intros [-> | H1]%string_nlt_cases [-> | H2]%string_nlt_cases;
    try apply string_ltb_irrefl; try by apply string_ltb_asym.
  all: apply string_ltb_asym; by apply (string_ltb_trans _ sb).
Qed.

Section Sorting.

Context {A : Type}.
Implicit Types (x : (bool * string) * A) (l : list ((bool * string) * A)).

Lemma insert_by_key_perm x l : insert_by_key x l ≡ₚ x :: l.
Proof.
  induction l as [|y l IH]; simpl; [done|].
  destruct (key_lt y.1 x.1); [|done]. rewrite IH. apply Permutation_swap.
Qed.

Lemma sorted_by_key_perm l : sorted_by_key l ≡ₚ l.
Proof.
  induction l as [|x l IH]; simpl; [done|].
  by rewrite insert_by_key_perm, IH.
Qed.

Lemma insert_by_key_sorted x l :
  StronglySorted (λ a b, key_le a.1 b.1) l →
  StronglySorted (λ a b, key_le a.1 b.1) (insert_by_key x l).
Proof.
  induction 1 as [|y l Hs IH Hy]; simpl; [by repeat constructor|].
  destruct (key_lt y.1 x.1) eqn:E.
  - constructor; [done|]. rewrite insert_by_key_perm. constructor; [|done].
    by apply key_lt_asym.
  - constructor; [by constructor|]. constructor; [done|].
    eapply Forall_impl; [exact Hy|]. intros z Hz. simpl in Hz.
    by apply (key_le_trans _ y.1).
Qed.

Lemma sorted_by_key_sorted l :
  StronglySorted (λ a b, key_le a.1 b.1) (sorted_by_key l).
Proof.
  induction l as [|x l IH]; simpl; [constructor|by apply insert_by_key_sorted].
Qed.

End Sorting.

(** The entries, after the sort on the keys [key]. *)
Lemma sorted_keyed_entries (key : Path → bool * string) (items : list Path) :
  let entries := map snd (sorted_by_key (map (λ x, (key x, x)) items)) in
  entries ≡ₚ items
  ∧ StronglySorted (λ a b, key_le (key a) (key b)) entries.
Proof.
  intros entries. subst entries. split.
  - rewrite sorted_by_key_perm, map_map. simpl. by rewrite map_id.
  - pose proof (sorted_by_key_sorted (map (λ x, (key x, x)) items)) as Hs.
    assert (Forall (λ kx, kx.1 = key kx.2)
              (sorted_by_key (map (λ x, (key x, x)) items))) as Hk.
    { rewrite sorted_by_key_perm. apply Forall_forall.
      intros kx (x & -> & _)%list_elem_of_fmap. done. }
    revert Hs Hk. generalize (sorted_by_key (map (λ x, (key x, x)) items)).
    induction 1 as [|kx l Hs IH Hx]; intros Hk; simpl; [constructor|].
    inversion Hk as [|? ? Hkx Hkl]; subst. constructor; [by apply IH|].
    rewrite Forall_fmap. rewrite Forall_forall in Hx, Hkl. apply Forall_forall.
    intros ky Hy. simpl. rewrite <- Hkx, <- (Hkl ky Hy). by apply Hx.
Qed.

(** ** The renderer *)

Lemma file_flag_frame w w2 x :
  w_fs w2 = w_fs w → w_cwd w2 = w_cwd w → file_flag w2 x = file_flag w x.
Proof.
  intros E1 E2. unfold file_flag, PathIO.is_file, PathIO.os_path.
  rewrite E1, E2.
  destruct (Posix.stat _ _) as [e|[]]; simpl; try done.
  by destruct (PathIO.ignore_error e).
Qed.

Lemma entry_keys_run l : ∀ w r w',
  entry_keys l w = (r, w') →
  w' = w
  ∧ ((∃ e, r = inl e ∧ is_OSError e = true)
     ∨ r = inr (map (λ x, (entry_key w x, x)) l)).
Proof.
  induction l as [|x l IH]; intros w r w' H; simpl in H.
  - inversion H; subst. split; [done|by right].
  - apply bind_inv in H as [(e & H & ->)|(f & w1 & Hf & H)].
    + apply is_file_run in H as (-> & Ho & _). split; [done|].
      left. exists e. split; [done|by apply Ho].
    + pose proof Hf as Hf'. apply is_file_run in Hf' as (-> & _).
      apply bind_inv in H as [(e & H & ->)|(rest & w1 & Hr & H)].
      * apply IH in H as [-> [(e' & [= <-] & He)|?]]; [|done].
        split; [done|]. left. by exists e.
      * apply IH in Hr as [-> [(e' & ? & _)|[= ->]]]; [done|].
        inversion H; subst r w'. split; [done|]. right. cbn [map].
        assert (entry_key w x = (f, PurePath.name x)) as ->; [|done].
        unfold entry_key, file_flag. by rewrite Hf.
Qed.

Lemma sorted_entries_run path w r w1 :
  sorted_entries path w = (r, w1) →
  grows w w1 (w_fs w) [] [] [] [SysListdir Renderer path]
  ∧ ((∃ e, r = inl e ∧ is_OSError e = true)
     ∨ ∃ names,
         Posix.listdir (w_fs w) (PathIO.os_path w path) = inr names
         ∧ r = inr (map snd (sorted_by_key
                      (map (λ x, (entry_key w x, x)) (map (child path) names))))).
Proof.
  unfold sorted_entries. intros H.
  apply bind_inv in H as [(e & H & ->)|(items & w2 & Hi & H)].
  - apply iterdir_run in H as [Hg [(e0 & [= ->] & _)|(? & ? & _)]]; [|done].
    split; [done|]. left. eexists. split; [done|apply OSError_of_is_OSError].
  - apply iterdir_run in Hi as [Hg [(? & ? & _)|(names & [= ->] & Hn)]]; [done|].
    apply bind_inv in H as [(e & H & ->)|(keyed & w3 & Hk & H)].
    + apply entry_keys_run in H as [-> [(e' & [= <-] & He)|?]]; [|done].
      split; [done|]. left. by exists e.
    + apply entry_keys_run in Hk as [-> [(? & ? & _)|[= ->]]]; [done|].
      inversion H; subst r w1. split; [done|]. right. exists names.
      split; [done|]. do 3 f_equal. apply map_ext. intros x.
      unfold entry_key. do 2 f_equal. apply file_flag_frame; by rewrite Hg.
Qed.

Lemma render_listing_run path sub w r w1 :
  render_listing path sub w = (r, w1) →
  (r = inr None
   ∧ ∃ msg, grows w w1 (w_fs w) [EvInaccessible sub] [msg] []
                  [SysListdir Renderer path])
  ∨ (∃ names,
       Posix.listdir (w_fs w) (PathIO.os_path w path) = inr names
       ∧ r = inr (Some (map snd (sorted_by_key
                    (map (λ x, (entry_key w x, x)) (map (child path) names)))))
       ∧ grows w w1 (w_fs w) [] [] [] [SysListdir Renderer path]).
Proof.
  unfold render_listing. intros H.
  apply try_except_inv in H as [(x & H & ->)|(e & w2 & H & Hh)].
  - apply bind_inv in H as [(? & _ & ?)|(entries & w2 & Hs & H)]; [done|].
    inversion H; subst x w1.
    apply sorted_entries_run in Hs as [Hg [(? & ? & _)|(names & Hn & [= ->])]];
      [done|].
    right. by exists names.
  - apply bind_inv in H as [(e' & H & [= <-])|(? & ? & _ & ?)]; [|done].
    apply sorted_entries_run in H as [Hg _]. simpl in Hh.
    apply bind_inv in Hh as [(? & Hw & _)|([] & w3 & Hw & Hh)];
      [by apply warn_run in Hw as [? _]|].
    apply warn_run in Hw as [_ Hw].
    apply bind_inv in Hh as [(? & Hp & _)|([] & w4 & Hp & Hh)];
      [by apply print_run in Hp as [? _]|].
    apply print_run in Hp as [_ Hp]. inversion Hh; subst r w1.
    left. split; [done|]. eexists.
    pose proof (grows_trans _ _ _ _ _ _ _ _ _ _ _ _ _ Hg Hw) as H1.
    rewrite (grows_fs _ _ _ _ _ _ _ Hg) in H1.
    pose proof (grows_trans _ _ _ _ _ _ _ _ _ _ _ _ _ H1 Hp) as H2.
    rewrite (grows_fs _ _ _ _ _ _ _ H1) in H2. exact H2.
Qed.

Lemma render_post_refl w r :
  (∀ e, r = inl e → e = RecursionError ∨ is_OSError e = true) →
  render_post w r w.
Proof. intros Hr. exists [], [], []. split; [apply grows_refl|done]. Qed.

Lemma render_post_trans w w1 r w2 :
  render_post w (inr tt) w1 → render_post w1 r w2 → render_post w r w2.
Proof.
  intros (o1 & e1 & c1 & H1 & Ho1 & Hc1 & _) (o2 & e2 & c2 & H2 & Ho2 & Hc2 & Hr).
  exists (o1 ++ o2), (e1 ++ e2), (c1 ++ c2).
  rewrite (grows_fs _ _ _ _ _ _ _ H1) in H2.
  split_and!; [|by apply Forall_app|by apply Forall_app|done].
  apply (grows_trans _ _ _ _ _ _ _ _ _ _ _ _ _ H1 H2).
Qed.

Lemma render_post_step w w1 r out errs calls :
  grows w w1 (w_fs w) out errs [] calls →
  Forall tree_event out → Forall renderer_lists calls →
  (∀ e, r = inl e → e = RecursionError ∨ is_OSError e = true) →
  render_post w r w1.
Proof. intros. by exists out, errs, calls. Qed.

Lemma for_enumerate_post {A} (body : nat → A → M unit) (l : list A) :
  (∀ i x w r w', body i x w = (r, w') → render_post w r w') →
  ∀ i w r w', for_enumerate i l body w = (r, w') → render_post w r w'.
Proof.
  intros Hbody. induction l as [|x l IH]; intros i w r w' H; simpl in H.
  - inversion H; subst. by apply render_post_refl.
  - apply bind_inv in H as [(e & H & ->)|([] & w1 & H1 & H)].
    + by apply Hbody in H.
    + apply Hbody in H1. apply IH in H. by apply (render_post_trans _ w1).
Qed.

(** The renderer only prints lines of the tree, logs warnings and lists
    directories; the disk and the collected list stay as they are. *)
Lemma display_tree_run limit : ∀ path indent prefix w r w',
  display_tree limit path indent prefix w = (r, w') → render_post w r w'.
Proof.
  induction limit as [|depth IH]; intros path indent prefix w r w' H.
  - inversion H; subst. apply render_post_refl. intros ? [= <-]. by left.
  - cbn [display_tree] in H.
    apply bind_inv in H as [(e & H & ->)|(d & w1 & Hd & H)].
    { apply is_dir_run in H as (-> & Ho & _). apply render_post_refl.
      intros ? [= <-]. right. by apply Ho. }
    apply is_dir_run in Hd as (-> & _). destruct d.
    + apply bind_inv in H as [(e & H & ->)|([] & w1 & Hp & H)];
        [by apply print_run in H as [? _]|].
      apply print_run in Hp as [_ Hp].
      apply (render_post_trans _ w1).
      { apply (render_post_step _ _ _ _ _ _ Hp); [by repeat constructor|done..]. }
      apply bind_inv in H as [(e & H & ->)|(listing & w2 & Hl & H)].
      { by apply render_listing_run in H as [[? _]|(? & _ & ? & _)]. }
      apply (render_post_trans _ w2).
      { apply render_listing_run in Hl as [[_ [msg Hg]]|(names & _ & _ & Hg)];
          apply (render_post_step _ _ _ _ _ _ Hg); try done;
          repeat constructor; by eexists. }
      destruct listing as [entries|].
      * eapply for_enumerate_post; [|exact H]. intros i x w0 r0 w0' H0.
        by apply IH in H0.
      * inversion H; subst. by apply render_post_refl.
    + apply print_run in H as [-> Hp].
      apply (render_post_step _ _ _ _ _ _ Hp); [by repeat constructor|done..].
Qed.

(** A call that returns has first printed the line of its own path. *)
Lemma display_tree_head limit path indent prefix w w' :
  display_tree limit path indent prefix w = (inr tt, w') →
  ∃ line rest,
    w_stdout w' = w_stdout w ++ line :: rest
    ∧ line_head line = Some (indent, prefix, PurePath.name path).
Proof.
  destruct limit as [|depth]; [done|]. cbn [display_tree]. intros H.
  apply bind_inv in H as [(e & H & ?)|(d & w1 & Hd & H)]; [done|].
  apply is_dir_run in Hd as (-> & _). destruct d.
  - apply bind_inv in H as [(e & H & ?)|([] & w1 & Hp & H)]; [done|].
    apply print_run in Hp as [_ Hp].
    assert (∃ rest, w_stdout w' = w_stdout w1 ++ rest) as [rest Hrest].
    { apply bind_inv in H as [(e & H & ?)|(listing & w2 & Hl & H)]; [done|].
      assert (∃ o, w_stdout w2 = w_stdout w1 ++ o) as [o1 Ho1].
      { apply render_listing_run in Hl as [[_ [msg Hg]]|(names & _ & _ & Hg)];
          rewrite Hg; by eexists. }
      assert (∃ o, w_stdout w' = w_stdout w2 ++ o) as [o2 Ho2].
      { destruct listing as [entries|].
        - eapply for_enumerate_post in H as (o & ? & ? & Hg & _);
            [rewrite Hg; by eexists|].
          intros i x w0 r0 w0'. apply display_tree_run.
        - inversion H; subst. exists []. by rewrite app_nil_r. }
      exists (o1 ++ o2). by rewrite Ho2, Ho1, app_assoc. }
    exists (EvDir indent prefix (PurePath.name path)), rest.
    split; [|done]. rewrite Hrest, Hp. simpl. by rewrite <- app_assoc.
  - apply print_run in H as [_ Hp]. eexists _, []. split; [by rewrite Hp|done].
Qed.

Lemma StronglySorted_lookup {A} (R : A → A → Prop) (l : list A) :
  StronglySorted R l →
  ∀ i j a b, (i < j)%nat → l !! i = Some a → l !! j = Some b → R a b.
Proof.
  induction 1 as [|x l Hs IH Hx]; intros i j a b Hij Hi Hj; [done|].
  destruct j as [|j]; [lia|]. simpl in Hj. destruct i as [|i].
  - injection Hi as <-. rewrite Forall_forall in Hx. apply Hx.
    by apply list_elem_of_lookup_2 in Hj.
  - simpl in Hi. apply (IH i j); [lia|done..].
Qed.

(** The entries of a rendered directory, one block of lines each. *)
Lemma for_enumerate_blocks depth sub (n : nat) (entries : list Path) :
  ∀ i w w',
    for_enumerate i entries
      (λ i item, display_tree depth item sub (connector i n)) w = (inr tt, w') →
    ∃ blocks,
      w_stdout w' = w_stdout w ++ concat blocks
      ∧ length blocks = length entries
      ∧ ∀ k item, entries !! k = Some item →
          ∃ line rest, blocks !! k = Some (line :: rest)
            ∧ line_head line = Some (sub, connector (i + k) n, PurePath.name item).
Proof.
  induction entries as [|x l IH]; intros i w w' H; simpl in H.
  - inversion H; subst. exists []. simpl. by rewrite app_nil_r.
  - apply bind_inv in H as [(? & _ & ?)|([] & w1 & H1 & H)]; [done|].
    apply display_tree_head in H1 as (line & rest & Hout & Hh).
    apply IH in H as (blocks & Hb & Hlen & Hk).
    exists ((line :: rest) :: blocks). split_and!.
    + rewrite Hb, Hout. simpl. by rewrite <- app_assoc.
    + simpl. by rewrite Hlen.
    + intros [|k] item Hitem; simpl in *.
      * injection Hitem as <-. exists line, rest. by rewrite Nat.add_0_r.
      * destruct (Hk k item Hitem) as (line' & rest' & Hl' & Hh').
        exists line', rest'. split; [done|].
        by replace (i + S k)%nat with (S i + k)%nat by lia.
Qed.



(** ** The stages of [main] *)

Lemma for_each_print_warn errors : ∀ w r w',
  for_each errors (λ e, print (EvWarn e)) w = (r, w') →
  r = inr tt ∧ grows w w' (w_fs w) (map EvWarn errors) [] [] [].
Proof.
  induction errors as [|e l IH]; intros w r w' H; simpl in H.
  - inversion H; subst. split; [done|apply grows_refl].
  - apply bind_inv in H as [(? & H & _)|([] & w1 & Hp & H)];
      [by apply print_run in H as [? _]|].
    apply print_run in Hp as [_ Hp]. apply IH in H as [-> Hg].
    split; [done|].
    pose proof (grows_trans _ _ _ _ _ _ _ _ _ _ _ _ _ Hp Hg) as Ht.
    by rewrite (grows_fs _ _ _ _ _ _ _ Hp) in Ht.
Qed.

Lemma choose_skip_dir_run src dst w r w' :
  choose_skip_dir src dst w = (r, w') →
  w' = w
  ∧ ∃ b, r = inr (if b : bool then Some dst else None)
         ∧ (b = true ↔ dst = src ∨ is_inside dst src = inr true).
Proof.
  unfold choose_skip_dir. rewrite bind_unfold.
  destruct (decide (dst = src)) as [->|Hne].
  - intros [= <- <-]. split; [done|]. exists true. split; [done|]. by intuition.
  - rewrite is_inside_total.
    destruct (PurePath.relative_to dst src); intros [= <- <-]; (split; [done|]).
    + exists false. split; [done|]. split; [done|]. by intros [|].
    + exists true. by intuition.
Qed.

(** Every run of [main] is one of the seven paths of [main_run]. *)
Lemma main_run_of limit a_src a_dst w r w' :
  main limit a_src a_dst w = (r, w') → main_run limit a_src a_dst w r w'.
Proof.
  unfold main. intros H.
  apply bind_inv in H as [(e & H & ->)|(src & w0 & Hs & H)].
  { pose proof H as H'. apply resolve_run in H' as [-> _].
    apply run_unresolved. by left. }
  pose proof Hs as Hs'. apply resolve_run in Hs' as [-> _].
  apply bind_inv in H as [(e & H & ->)|(dst & w0 & Hd & H)].
  { pose proof H as H'. apply resolve_run in H' as [-> _].
    apply run_unresolved. right. by exists src. }
  pose proof Hd as Hd'. apply resolve_run in Hd' as [-> _].
  apply bind_inv in H as [(e & H & ->)|(ex & w0 & Hex & H)].
  { pose proof H as H'. apply exists_run in H' as [-> _].
    apply (run_stat_raised _ _ _ _ src dst); [done..|by left]. }
  pose proof Hex as Hex'. apply exists_run in Hex' as [-> _].
  apply bind_inv in H as [(e & H & ->)|(isd & w0 & Hisd & H)].
  { destruct ex; [|done]. pose proof H as H'. apply is_dir_run in H' as [-> _].
    apply (run_stat_raised _ _ _ _ src dst); [done..|by right]. }
  assert (w0 = w) as ->.
  { destruct ex; [by apply is_dir_run in Hisd as [-> _]|by inversion Hisd]. }
  destruct (negb ex || negb isd) eqn:Hbad.
  { apply print_run in H as [-> Hp].
    apply (run_fatal_src _ _ _ _ src dst); [done..| |done].
    destruct ex; [|by left]. destruct isd; [done|by right]. }
  destruct ex, isd; try done. clear Hbad.
  apply bind_inv in H as [(e & H & ->)|(skip & w0 & Hsk & H)].
  { by apply choose_skip_dir_run in H as [_ (? & ? & _)]. }
  pose proof Hsk as Hsk'. apply choose_skip_dir_run in Hsk' as [-> _].
  apply bind_inv in H as [(e & H & ->)|(made & w1 & Hmk & H)].
  { apply try_except_inv in H as [(? & _ & ?)|(e' & w1 & Hm & Hh)]; [done|].
    apply bind_inv in Hm as [(e2 & Hm & [= <-])|(? & ? & _ & ?)]; [|done].
    apply mkdir_run in Hm as (_ & Ho & _). rewrite (Ho e') in Hh by done.
    apply bind_inv in Hh as [(? & Hp & _)|(? & ? & _ & ?)]; [|done].
    by apply print_run in Hp as [? _]. }
  apply try_except_inv in Hmk as [(? & Hm & [= <-])|(e' & w2 & Hm & Hh)].
  - apply bind_inv in Hm as [(? & _ & ?)|([] & w2 & Hm & Hr)]; [done|].
    inversion Hr; subst made w2. cbn [negb] in H.
    assert (validated a_src a_dst src dst skip w w1) as Hval by done.
    apply bind_inv in H as [(e & H & ->)|([] & w2 & Hset & H)]; [done|].
    assert (w2 = reset_files w1) as -> by (by inversion Hset).
    apply bind_inv in H as [(e & H & ->)|([] & w2 & Hwalk & H)].
    { by apply (run_walk_raised _ _ _ _ src dst skip w1). }
    apply bind_inv in H as [(e & H & ->)|(files & w0 & Hget & H)]; [done|].
    assert (w0 = w2 ∧ files = files_to_copy w2) as [-> ->]
      by (by inversion Hget).
    destruct (Nat.eqb_spec (length (files_to_copy w2)) 0) as [Hz|Hnz].
    { apply (run_empty _ _ _ _ src dst skip w1 w2); [done..| |done].
      by destruct (files_to_copy w2). }
    apply bind_inv in H as [(e & H & ->)|([] & w3 & Hloop & H)].
    { by apply copy_loop_run in H as [? _]. }
    pose proof Hloop as Hloop'. apply copy_loop_run in Hloop' as [_ _]; [|done].
    apply bind_inv in H as [(e & H & ->)|([] & w4 & Hp1 & H)];
      [by apply print_run in H as [? _]|].
    apply print_run in Hp1 as [_ Hp1].
    apply bind_inv in H as [(e & H & ->)|(errors & w0 & Hget2 & H)]; [done|].
    assert (w0 = w4 ∧ errors = ERRORS w4) as [-> ->] by (by inversion Hget2).
    assert (ERRORS w4 = ERRORS w3) as Eerr.
    { rewrite Hp1. simpl. by rewrite app_nil_r. }
    assert (∃ w5, grows w4 w5 (w_fs w4)
                    (if bool_decide (ERRORS w3 ≠ [])
                     then map EvWarn (ERRORS w3) ++ [EvNewline] else []) [] [] []
                  ∧ (print EvInfo ;; display_tree limit dst "" "") w5 = (r, w'))
      as (w5 & Hg5 & H5).
    { rewrite Eerr in H.
      apply bind_inv in H as [(e & H & ->)|([] & w5 & Hfl & H)].
      - destruct (bool_decide (ERRORS w3 ≠ [])); [|done].
        apply bind_inv in H as [(? & H & _)|([] & w6 & _ & H)];
          [by apply for_each_print_warn in H as [? _]|].
        by apply print_run in H as [? _].
      - exists w5. split; [|done].
        destruct (bool_decide (ERRORS w3 ≠ [])).
        + apply bind_inv in Hfl as [(? & _ & ?)|([] & w6 & Hw & Hn)]; [done|].
          apply for_each_print_warn in Hw as [_ Hw].
          apply print_run in Hn as [_ Hn].
          pose proof (grows_trans _ _ _ _ _ _ _ _ _ _ _ _ _ Hw Hn) as Ht.
          by rewrite (grows_fs _ _ _ _ _ _ _ Hw) in Ht.
        + inversion Hfl; subst. apply grows_refl. }
    apply bind_inv in H5 as [(e & H5 & ->)|([] & w6 & Hp6 & H5)];
      [by apply print_run in H5 as [? _]|].
    apply print_run in Hp6 as [_ Hp6].
    apply (run_copied _ _ _ _ src dst skip w1 w2 w3 w6); try done.
    { intros E. by rewrite E in Hnz. }
    pose proof (grows_trans _ _ _ _ _ _ _ _ _ _ _ _ _ Hp1 Hg5) as H45.
    rewrite (grows_fs _ _ _ _ _ _ _ Hp1) in H45.
    pose proof (grows_trans _ _ _ _ _ _ _ _ _ _ _ _ _ H45 Hp6) as H46.
    rewrite (grows_fs _ _ _ _ _ _ _ H45) in H46.
    unfold flush_out. simpl in H46. exact H46.
  - apply bind_inv in Hm as [(e2 & Hm & [= <-])|(? & ? & _ & ?)]; [|done].
    pose proof Hm as Hm'. apply mkdir_run in Hm' as (_ & Ho & _).
    rewrite (Ho e') in Hh by done.
    apply bind_inv in Hh as [(? & _ & ?)|([] & w3 & Hp & Hr)]; [done|].
    inversion Hr; subst made w3. cbn [negb] in H. inversion H; subst r w'.
    apply print_run in Hp as [_ Hp].
    apply (run_fatal_dst _ _ _ _ src dst skip e' w2); try done.
    by apply Ho.
Qed.

(** ** Runs that stop before the copy *)

Lemma is_dir_false_exists p w :
  PathIO.is_dir p w = (inr false, w) → ∃ ex, PathIO.exists_ p w = (inr ex, w).
Proof.
  unfold PathIO.is_dir, PathIO.exists_.
  destruct (Posix.stat (w_fs w) (PathIO.os_path w p)) as [e|i]; [|by eexists].
  destruct (PathIO.ignore_error e); [by eexists|done].
Qed.

Lemma exists_false_is_dir p w :
  PathIO.exists_ p w = (inr false, w) → PathIO.is_dir p w = (inr false, w).
Proof.
  unfold PathIO.is_dir, PathIO.exists_.
  destruct (Posix.stat (w_fs w) (PathIO.os_path w p)) as [e|i]; [|done].
  by destruct (PathIO.ignore_error e).
Qed.



(** ** Runs that collect nothing *)

Lemma main_after_validation limit a_src a_dst src dst skip w w1 :
  validated a_src a_dst src dst skip w w1 →
  main limit a_src a_dst w
  = (collect_files_recursive limit src skip ;;
     files ← get files_to_copy;
     let total := length files in
     if (total =? 0)%nat then display_tree limit dst "" ""
     else
       let delay := if (total <=? 20)%nat then 200%nat
                    else if (total <=? 100)%nat then 100%nat else 30%nat in
       copy_loop dst total delay 1 files ;;
       print EvNewline ;;
       errors ← get ERRORS;
       (if bool_decide (errors ≠ [])
        then for_each errors (λ e, print (EvWarn e)) ;; print EvNewline
        else mret tt) ;;
       print EvInfo ;;
       display_tree limit dst "" "") (reset_files w1).
Proof.
  intros (Hs & Hd & Hex & Hdir & Hsk & Hmk). unfold main.
  rewrite bind_unfold, Hs, bind_unfold, Hd, bind_unfold, Hex, bind_unfold, Hdir.
  cbn [negb orb]. rewrite bind_unfold, Hsk, bind_unfold.
  unfold try_except at 1. rewrite bind_unfold, Hmk. cbn [negb].
  by rewrite bind_unfold.
Qed.

Lemma walker_frame limit src skip w r w' :
  collect_files_recursive limit src skip w = (r, w') →
  ∃ errs files calls,
    grows w w' (w_fs w) [] errs files calls
    ∧ Forall (walker_lists (λ _, True)) calls.
Proof.
  intros H.
  destruct (collect_invariant skip (w_fs w) (w_cwd w) (λ _, True) (λ _, True))
    with (limit := limit) (src := src) (w := w) (r := r) (w' := w')
    as (errs & files & calls & Hg & _ & Hc); try done.
  by exists errs, files, calls.
Qed.

(** C7. When the walk returns without a single file, [main] goes straight
    to the renderer: its result is that of [display_tree] on the
    destination.  The destination is a directory by then; the disk has
    gained directories at most, from the [mkdir] of the destination; the
    terminal shows lines of the tree only (no progress bar); the calls
    after that [mkdir] are listings (no copy, no bucket); and no division
    by zero is raised. *)
Theorem empty_collection_skips_copy
  limit a_src a_dst src dst skip w w1 w2 r w' :
  validated a_src a_dst src dst skip w w1 →
  collect_files_recursive limit src skip (reset_files w1) = (inr tt, w2) →
  files_to_copy w2 = [] →
  main limit a_src a_dst w = (r, w') →
  display_tree limit dst "" "" w2 = (r, w')
  ∧ PathIO.is_dir dst w2 = (inr true, w2)
  ∧ w_fs w' = w_fs w1 ∧ dirs_added (w_fs w) (w_fs w')
  ∧ (∃ out, w_stdout w' = w_stdout w ++ out ∧ Forall tree_event out)
  ∧ (∃ calls, w_calls w' = w_calls w ++ SysMkdir dst :: calls
              ∧ Forall (λ c, ∃ s d, c = SysListdir s d) calls)
  ∧ r ≠ inl ZeroDivisionError.
Proof.
  intros Hval Hwalk Hnone Hmain.
  rewrite (main_after_validation _ _ _ _ _ _ _ _ Hval) in Hmain.
  rewrite bind_unfold, Hwalk, bind_unfold in Hmain. unfold get in Hmain.
  rewrite Hnone in Hmain. cbn [length Nat.eqb] in Hmain.
  destruct Hval as (_ & _ & _ & _ & _ & Hmk).
  apply mkdir_run in Hmk as ((fs1 & Hg1 & Hd1) & _ & Hisdir).
  specialize (Hisdir eq_refl).
  apply walker_frame in Hwalk as (errs & files & calls & Hg2 & Hc2).
  pose proof Hmain as Hrender.
  apply display_tree_run in Hrender as (out & errs3 & calls3 & Hg3 & Ho & Hc3 & Hr).
  assert (w_fs w1 = fs1) as Efs1 by (by rewrite Hg1).
  split_and!.
  - done.
  - apply is_dir_run in Hisdir as (_ & _ & Hframe). apply Hframe; by rewrite Hg2.
  - rewrite Hg3, Hg2. done.
  - rewrite Hg3, Hg2. simpl. by rewrite Efs1.
  - exists out. split; [|done]. rewrite Hg3, Hg2, Hg1. simpl.
    by rewrite !app_nil_r.
  - exists (calls ++ calls3). split.
    + rewrite Hg3, Hg2, Hg1. simpl. by rewrite <- !app_assoc.
    + apply Forall_app. split.
      * eapply Forall_impl; [exact Hc2|]. intros c (d & -> & _). by eexists _, _.
      * eapply Forall_impl; [exact Hc3|]. intros c (d & ->). by eexists _, _.
  - intros ->. by destruct (Hr _ eq_refl).
Qed.

Lemma empty_collection_skips_copy_witness :
  let w := initial_world Sample.locked [] in
  let w1 := (PathIO.mkdir Sample.out w).2 in
  let w2 := (collect_files_recursive 1000 Sample.vault None (reset_files w1)).2 in
  let w' := (main 1000 Sample.vault Sample.out w).2 in
  display_tree 1000 Sample.out "" "" w2 = (inr tt, w')
  ∧ PathIO.is_dir Sample.out w2 = (inr true, w2)
  ∧ w_fs w' = w_fs w1 ∧ dirs_added (w_fs w) (w_fs w')
  ∧ (∃ out, w_stdout w' = w_stdout w ++ out ∧ Forall tree_event out)
  ∧ (∃ calls, w_calls w' = w_calls w ++ SysMkdir Sample.out :: calls
              ∧ Forall (λ c, ∃ s d, c = SysListdir s d) calls)
  ∧ inr tt ≠ inl ZeroDivisionError.
Proof.
  intros w w1 w2 w'.
  apply (empty_collection_skips_copy 1000 Sample.vault Sample.out
           Sample.vault Sample.out None w w1 w2 (inr tt) w').
  - by vm_compute.
  - by vm_compute.
  - by vm_compute.
  - by vm_compute.
Defined.

(** ** A destination inside the source *)

Lemma is_inside_bool a b : ∃ c, is_inside a b = inr c.
Proof. rewrite is_inside_total. by eexists. Qed.

Lemma is_inside_false a b :
  is_inside a b ≠ inr true → is_inside a b = inr false.
Proof. destruct (is_inside_bool a b) as [[] ->]; congruence. Qed.

(** An entry of a directory outside [dst] is [dst] itself or outside
    [dst]. *)
Lemma not_inside_child d n dst :
  anchor d = "/" → anchor dst = "/" →
  is_inside d dst = inr false → child d n ≠ dst →
  is_inside (child d n) dst = inr false.
Proof.
  intros Hd Hdst Hout Hne. apply is_inside_false. intros Hin.
  apply is_inside_absolute in Hin as [Ha [rest Hr]];
    [|by rewrite Hdst|by simpl; rewrite Hd].
  simpl in Hr. destruct (decide (rest = [])) as [->|Hrest].
  - rewrite app_nil_r in Hr. destruct Hne. destruct dst as [da dp].
    unfold child. simpl in *. congruence.
  - destruct (exists_last Hrest) as (rest' & n' & ->).
    rewrite app_assoc in Hr. apply app_inj_tail in Hr as [Hr _].
    assert (is_inside d dst = inr true) as Hin; [|congruence].
    apply is_inside_absolute; [by rewrite Hdst|by rewrite Hd|].
    split; [congruence|by exists rest'].
Qed.

Lemma strict_ancestor_outside src dst :
  anchor src = "/" → anchor dst = "/" →
  is_inside dst src = inr true → dst ≠ src →
  is_inside src dst = inr false.
Proof.
  intros Hs Hd Hin Hne. apply is_inside_false. intros Hback.
  apply is_inside_absolute in Hin as [_ [r1 H1]];
    [|by rewrite Hs|by rewrite Hd].
  apply is_inside_absolute in Hback as [_ [r2 H2]];
    [|by rewrite Hd|by rewrite Hs].
  rewrite H2, <- app_assoc in H1.
  assert (r2 ++ r1 = []) as Hnil.
  { apply (app_inv_head (parts dst)). by rewrite app_nil_r. }
  apply app_eq_nil in Hnil as [-> _]. rewrite app_nil_r in H2.
  destruct Hne. destruct src, dst. simpl in *. congruence.
Qed.

(** The entry that is the skip directory itself never passes the skip
    test. *)
Lemma is_skipped_self sd w w2 : is_skipped (Some sd) sd w ≠ (inr false, w2).
Proof.
  intros (a & b & Ha & Hb & Hne)%is_skipped_false. congruence.
Qed.

Section NestedDestination.

Variables (src dst : Path).
Hypothesis Hsrc : anchor src = "/".
Hypothesis Hdst : anchor dst = "/".

#[local] Abbreviation outside := (outside dst).

Lemma outside_step fs cwd d n w1 w2 :
  outside d → w_fs w1 = fs → w_cwd w1 = cwd →
  is_skipped (Some dst) (child d n) w1 = (inr false, w2) →
  outside (child d n) ∧ outside (child d n).
Proof.
  intros [Ha Hout] _ _ Hskip.
  assert (outside (child d n)) as H; [|done].
  split; [done|]. apply not_inside_child; try done.
  intros E. rewrite E in Hskip. by apply is_skipped_self in Hskip.
Qed.

(** The walk with the skip directory [dst], started outside [dst], lists
    and collects outside [dst] only. *)
Lemma walk_outside limit w r w' :
  outside src →
  collect_files_recursive limit src (Some dst) w = (r, w') →
  walk_post (w_fs w) outside outside w w'.
Proof.
  intros Hout H.
  apply (collect_invariant (Some dst) (w_fs w) (w_cwd w) outside outside
           (outside_step (w_fs w) (w_cwd w)) limit src w r w'); done.
Qed.

Lemma walk_outside_depth limit w L :
  outside src →
  (∀ p, is_inside p dst = inr false → (L ≤ length (parts p))%nat →
        PathIO.is_dir p w ≠ (inr true, w)) →
  (L ≤ length (parts src) + limit)%nat → (0 < limit)%nat →
  (collect_files_recursive limit src (Some dst) w).1 ≠ inl RecursionError.
Proof.
  intros Hout Hdeep HL Hpos.
  destruct (collect_files_recursive limit src (Some dst) w) as [r w'] eqn:H.
  simpl.
  apply (collect_depth (Some dst) (w_fs w) (w_cwd w) outside outside
           (outside_step (w_fs w) (w_cwd w)) L) with (limit := limit)
           (src := src) (w := w) (w' := w'); try done.
  intros p w1 [_ Hp] E1 E2 Hlen Hd. apply (Hdeep p Hp Hlen).
  apply is_dir_run in Hd as (_ & _ & Hframe). by apply Hframe.
Qed.

(** The files and the calls of a whole run whose destination lies
    strictly inside its source. *)
Lemma nested_run_footprint limit a_src a_dst fs cwd r w' :
  let w := initial_world fs cwd in
  PathIO.resolve a_src w = (inr src, w) →
  PathIO.resolve a_dst w = (inr dst, w) →
  is_inside dst src = inr true → dst ≠ src →
  main limit a_src a_dst w = (r, w') →
  Forall outside (files_to_copy w')
  ∧ Forall (run_call dst (files_to_copy w')) (w_calls w').
Proof.
  intros w Hs Hd Hin Hne Hmain.
  assert (outside src) as Hout.
  { split; [done|]. by apply strict_ancestor_outside. }
  assert (∀ src' dst' skip w1,
            validated a_src a_dst src' dst' skip w w1 →
            src' = src ∧ dst' = dst ∧ skip = Some dst
            ∧ files_to_copy (reset_files w1) = []
            ∧ w_calls (reset_files w1) = [SysMkdir dst]) as Hval.
  { intros src' dst' skip w1 (Hs' & Hd' & _ & _ & Hsk & Hmk).
    assert (src' = src) as -> by congruence.
    assert (dst' = dst) as -> by congruence.
    apply choose_skip_dir_run in Hsk as [_ (b & [= ->] & Hb)].
    apply mkdir_run in Hmk as ((fs1 & Hg & _) & _).
    split_and!; [done|done| |done|by rewrite Hg].
    destruct b; [done|]. assert (false = true); [|done].
    apply Hb. by right. }
  assert (∀ w1 r2 w2,
            files_to_copy w1 = [] → w_calls w1 = [SysMkdir dst] →
            collect_files_recursive limit src (Some dst) w1 = (r2, w2) →
            Forall outside (files_to_copy w2)
            ∧ Forall (run_call dst (files_to_copy w2)) (w_calls w2)) as Hwalk.
  { intros w1 r2 w2 Hf Hc H.
    apply walk_outside in H as (errs & files & calls & Hg & HJ & HI); [|done].
    rewrite Hg. simpl. rewrite Hf, Hc. simpl. split; [done|].
    constructor; [left; by eexists|].
    eapply Forall_impl; [exact HI|]. intros c Hcall. right. by left. }
  apply main_run_of in Hmain.
  inversion Hmain as
    [ e _ | s' d' e _ _ _ | s' d' w0 _ _ _ Hg
    | s' d' skip e w1 w0 _ _ _ _ Hmk _ Hg
    | s' d' skip w1 w2 e Hv Hw
    | s' d' skip w1 w2 r0 w0 Hv Hw Hnone Hrender
    | s' d' skip w1 w2 w3 w4 r0 w0 Hv Hw Hsome Hloop Hflush Hrender ]; subst.
  - done.
  - done.
  - rewrite Hg. simpl. done.
  - apply mkdir_run in Hmk as ((fs1 & Hg1 & _) & _).
    rewrite Hg, Hg1. simpl. split; [done|].
    constructor; [left; by eexists|done].
  - destruct (Hval _ _ _ _ Hv) as (-> & -> & -> & Hf & Hc).
    by apply (Hwalk _ _ _ Hf Hc Hw).
  - destruct (Hval _ _ _ _ Hv) as (-> & -> & -> & Hf & Hc).
    destruct (Hwalk _ _ _ Hf Hc Hw) as [HF HC].
    apply display_tree_run in Hrender as (out & errs & calls & Hg & _ & Hcr & _).
    rewrite Hg. simpl. rewrite app_nil_r. split; [done|].
    apply Forall_app. split; [done|].
    eapply Forall_impl; [exact Hcr|]. intros c Hcall. right. right. by left.
  - destruct (Hval _ _ _ _ Hv) as (-> & -> & -> & Hf & Hc).
    destruct (Hwalk _ _ _ Hf Hc Hw) as [HF HC].
    apply copy_loop_run in Hloop as (_ & _ & fs3 & errs3 & calls3 & Hg3 & Hc3);
      [|by destruct (files_to_copy w2)].
    apply display_tree_run in Hrender as (out & errs & calls & Hg & _ & Hcr & _).
    rewrite Hg, Hflush, Hg3. simpl. rewrite !app_nil_r. split; [done|].
    rewrite <- app_assoc. apply Forall_app. split; [done|].
    apply Forall_app. split.
    + eapply Forall_impl; [exact Hc3|]. intros c Hcall. by do 3 right.
    + eapply Forall_impl; [exact Hcr|]. intros c Hcall. right. right. by left.
Qed.

End NestedDestination.




(** ** Warnings of a run that collects nothing, and of the final tree *)

(** C3 (source of a divergence).  The source [/vault] cannot be listed:
    the walker records its warning, no file is collected, [main] returns
    through its early exit and the warning is never printed.  With one
    file to copy and an unreadable directory in the destination, the
    warning of the renderer is recorded after the warnings have been
    printed, and is not printed either. *)
Lemma warnings_left_unprinted :
  let empty := main 1000 Sample.vault Sample.out (initial_world Sample.locked []) in
  let late := main 1000 Sample.inbox Sample.out (initial_world Sample.guarded []) in
  empty.1 = inr tt
  ∧ ERRORS empty.2 = ["Немає доступу: /vault"]
  ∧ w_stdout empty.2 = [EvDir "" "" "out"]
  ∧ late.1 = inr tt
  ∧ ERRORS late.2 = ["Немає доступу: /out/private"]
  ∧ w_stdout late.2
    = [EvProgress 1 1; EvSleep 200; EvNewline; EvInfo;
       EvDir "" "" "out"; EvDir "" "├── " "private"; EvInaccessible "    ";
       EvDir "" "└── " "txt"; EvFile "    " "└── " "a.txt" GREEN].
Proof. by vm_compute. Qed.

(** ** The copy loop *)

(** C2 (as stated fails).  The bucket path [/out/txt/a.txt] of the only
    collected file is a directory: the copy goes inside it, no warning is
    recorded, and the bucket path holds no file. *)
Lemma copy_into_occupied_bucket_path :
  let w := initial_world Sample.occupied [] in
  let f := mkPath "/" ["in"; "a.txt"] in
  let w' := (main 1000 Sample.inbox Sample.out w).2 in
  files_to_copy w' = [f]
  ∧ ERRORS w' = []
  ∧ Posix.read_file (w_fs w') ["out"; "txt"; "a.txt"; "a.txt"]
    = inr (Posix.rwx, "a", 1700000000%Z)
  ∧ ¬ attempt_as_stated Sample.out f w w'.
Proof.
  intros w f w'. split_and!; [by vm_compute..|].
  intros [(m & d & mt & _ & H)|(msg & H)].
  - vm_compute in H. discriminate.
  - vm_compute in H. discriminate.
Qed.

(** C2 (amended).  The copy loop over any list of files, from any state
    of the disk, returns without an exception after one pass per file, in
    order ([batch]); each pass ([attempt]) either leaves [ERRORS] as it
    was and the copy readable, with the content, the permission bits and
    the modification time read from the source, at the bucket path or,
    when that path is a directory, at the entry named after the file
    inside it; or it adds exactly one warning that names the file.  The
    terminal gains one progress report and one pause per file, and every
    call made is the [mkdir] or the [copy2] of one of the files. *)
Theorem copy_attempts_spec dst total delay i files w r w' :
  total ≠ 0%nat →
  copy_loop dst total delay i files w = (r, w') →
  r = inr tt
  ∧ batch dst total delay i files w w'
  ∧ ∃ fs' errs calls,
      grows w w' fs' (progress_out total delay i (length files)) errs [] calls
      ∧ (length errs ≤ length files)%nat
      ∧ Forall (copy_call dst files) calls.
Proof.
  intros Ht H.
  destruct (copy_loop_run dst total delay files i w r w' Ht H)
    as (-> & Hb & fs' & errs & calls & Hg & Hc).
  split_and!; [done|done|].
  exists fs', errs, calls. split_and!; [done| |done].
  assert (length (ERRORS w') = (length (ERRORS w) + length errs)%nat) as He.
  { rewrite Hg. simpl. by rewrite length_app. }
  enough (length (ERRORS w') ≤ length (ERRORS w) + length files)%nat by lia.
  clear -Hb. induction Hb as [|i f rest w w1 w2 w' _ Ha Hg _ IH]; [simpl; lia|].
  assert (ERRORS w2 = ERRORS w1) as E2.
  { rewrite Hg. simpl. by rewrite app_nil_r. }
  rewrite E2 in IH. simpl.
  destruct Ha as [wm q m d mt _ _ _ E _ _ _ _ _ _|pre E _].
  - rewrite E in IH. lia.
  - rewrite E, length_app in IH. simpl in IH. lia.
Qed.

Lemma copy_attempts_spec_witness :
  let w := initial_world Sample.plain [] in
  let files := [mkPath "/" ["in"; "a.txt"]; mkPath "/" ["in"; "missing.txt"]] in
  let w' := (copy_loop Sample.out 2 200 1 files w).2 in
  batch Sample.out 2 200 1 files w w'
  ∧ ERRORS w' = ["Файл не знайдено: /in/missing.txt"]
  ∧ w_stdout w' = [EvProgress 1 2; EvSleep 200; EvProgress 2 2; EvSleep 200].
Proof.
  intros w files w'.
  destruct (copy_attempts_spec Sample.out 2 200 1 files w (inr tt) w')
    as (_ & Hb & _).
  - lia.
  - by vm_compute.
  - split_and!; [exact Hb|by vm_compute..].
Defined.

(** ** Counting the copies in an empty destination *)

Lemma bucket_name f :
  get_extension_subdir f ≠ ""
  ∧ PyStr.lacks "." (get_extension_subdir f) = true.
Proof.
  unfold get_extension_subdir.
  destruct (decide (PurePath.suffix f = "")) as [E|E]; [by rewrite E|].
  destruct (name_of_suffix f E) as (stem & ext & Hn & Hs & He & Hl).
  rewrite (suffix_of_name f stem ext Hn Hs He Hl). simpl.
  rewrite (lstrip_lacks _ _ (lower_lacks_dot _ Hl)).
  split; [by destruct ext|by apply lower_lacks_dot].
Qed.

Lemma lacks_dot_entry_name e :
  e ≠ "" → PyStr.lacks "." e = true → entry_name e.
Proof.
  intros He Hl. split_and!; [done|intros ->; by vm_compute in Hl..].
Qed.

Lemma truediv_entry p s :
  entry_name s → p // s = mkPath (anchor p) (parts p ++ [s]).
Proof.
  intros (H1 & H2 & _). unfold PurePath.truediv.
  destruct (decide (s = "" ∨ s = ".")) as [[?|?]|_]; done.
Qed.

Section BucketCopies.

Import Posix.

Lemma snoc_ne (P s : list string) : s ≠ [] → P ++ s ≠ P.
Proof.
  intros Hs E. apply (f_equal length) in E. rewrite length_app in E.
  destruct s; [done|simpl in E; lia].
Qed.

Lemma dir_mode_lookup (fs : FS) (P : list string) (m : mode) :
  fs !! P = Some (Dir m) → ∃ dm, dir_mode fs P = Some dm.
Proof.
  intros H. unfold dir_mode, inode_at. destruct P; [by eexists|].
  rewrite H. by eexists.
Qed.

Lemma dir_mode_child (fs : FS) (P : list string) (e : string) (m : mode) :
  fs !! (P ++ [e]) = Some (Dir m) → dir_mode fs (P ++ [e]) = Some m.
Proof.
  intros H. unfold dir_mode, inode_at. destruct (P ++ [e]) eqn:E;
    [by destruct P|]. by rewrite H.
Qed.

(** [os.mkdir] of an entry of a directory reached without links. *)
Lemma mkdir_child (fs : FS) (P : list string) (e : string) (dm : mode) :
  namei MAXSYMLINKS fs [] P = inr P → dir_mode fs P = Some dm → e ≠ ".." →
  Posix.mkdir fs (P ++ [e])
  = if negb (m_x dm) then inl EACCES
    else match fs !! (P ++ [e]) with
         | Some _ => inl EEXIST
         | None => if m_w dm then inr (<[P ++ [e] := Dir rwx]> fs)
                   else inl EACCES
         end.
Proof.
  intros Hn Hd He. unfold Posix.mkdir.
  destruct (P ++ [e]) eqn:E; [by destruct P|]. rewrite <- E.
  rewrite List.removelast_last, List.last_last, Hn, Hd.
  destruct (negb (m_x dm)); [done|]. by destruct (decide (e = "..")).
Qed.

(** The walk to an entry of a directory reached without links. *)
Lemma namei_child (fs : FS) (P : list string) (e : string) (dm : mode) :
  namei MAXSYMLINKS fs [] P = inr P → dir_mode fs P = Some dm → e ≠ ".." →
  (∀ t, fs !! (P ++ [e]) ≠ Some (Link t)) →
  namei MAXSYMLINKS fs [] (P ++ [e])
  = if negb (m_x dm) then inl EACCES
    else match fs !! (P ++ [e]) with
         | Some _ => inr (P ++ [e])
         | None => inl ENOENT
         end.
Proof.
  intros Hn Hd He Hl. apply (namei_snoc fs e P); [|exact Hn].
  intros l. rewrite namei_cons, Hd. destruct (negb (m_x dm)); [done|].
  destruct (decide (e = "..")); [done|].
  destruct (fs !! (P ++ [e])) as [[| |t]|] eqn:E;
    [by rewrite namei_nil..|by destruct (Hl t)|done].
Qed.

Lemma files_under_insert_dir (fs : FS) (P k : list string) (m : mode) :
  fs !! k = None →
  files_under (<[k := Dir m]> fs) P = files_under fs P.
Proof.
  intros Hk. unfold files_under. f_equal.
  apply map_filter_insert_not'; [by intros [_ ?]|].
  intros y Hy. by rewrite Hk in Hy.
Qed.

Lemma files_under_insert_file (fs : FS) (P s : list string) (m : mode)
  (d : string) (t : Z) :
  fs !! (P ++ s) = None →
  files_under (<[P ++ s := File m d t]> fs) P = S (files_under fs P).
Proof.
  intros Hk. unfold files_under.
  rewrite map_filter_insert_True; [|split; [by apply prefix_app_r|done]].
  apply map_size_insert_None, map_lookup_filter_None. by left.
Qed.

Lemma buckets_more_names (fs : FS) (P names : list string) (n : nat) (nm : string) :
  buckets_of fs P names n → buckets_of fs P (nm :: names) n.
Proof.
  intros (H1 & H2 & H3 & H4). split_and!; [done..| |done].
  intros s i Hs Hi. destruct (H3 s i Hs Hi) as [?|(e & nm' & ? & ? & ?)];
    [by left|right]. exists e, nm'. split_and!; [done..|by right].
Qed.

Lemma buckets_insert_dir (fs : FS) (P names : list string) (n : nat) (e : string) :
  buckets_of fs P names n → fs !! (P ++ [e]) = None →
  buckets_of (<[P ++ [e] := Dir rwx]> fs) P names n.
Proof.
  intros (H1 & (m & H2) & H3 & H4) Hk. split_and!.
  - apply namei_insert; [by left|done|done].
  - exists m. rewrite lookup_insert_ne; [done|]. by apply snoc_ne.
  - intros s i Hs. destruct (decide (s = [e])) as [->|Hne].
    + rewrite lookup_insert_eq. intros [= <-]. left. by exists e.
    + rewrite lookup_insert_ne; [by apply H3|].
      intros E. by apply app_inv_head in E.
  - by rewrite files_under_insert_dir.
Qed.

Lemma buckets_insert_file (fs : FS) (P names : list string) (n : nat)
  (e nm : string) (m : mode) (d : string) (t : Z) :
  buckets_of fs P names n → fs !! (P ++ [e; nm]) = None →
  buckets_of (<[P ++ [e; nm] := File m d t]> fs) P (nm :: names) (S n).
Proof.
  intros (H1 & (m' & H2) & H3 & H4) Hk. split_and!.
  - apply namei_insert; [by left|done|done].
  - exists m'. rewrite lookup_insert_ne; [done|]. by apply snoc_ne.
  - intros s i Hs. destruct (decide (s = [e; nm])) as [->|Hne].
    + rewrite lookup_insert_eq. intros [= <-]. right. exists e, nm.
      split_and!; [done..|by left].
    + rewrite lookup_insert_ne; [|intros E; by apply app_inv_head in E].
      intros Hi. destruct (H3 s i Hs Hi) as [?|(e' & nm' & ? & ? & ?)];
        [by left|right]. exists e', nm'. split_and!; [done..|by right].
  - rewrite files_under_insert_file; [by rewrite H4|done].
Qed.

Lemma empty_dir_buckets (fs : FS) (d : Path) :
  empty_dir fs d → buckets_of fs (parts d) [] 0.
Proof.
  intros (_ & Hn & Hd & He). split_and!; [done|done| |].
  - intros s i Hs Hi. rewrite He in Hi; [done|by apply prefix_app_r|].
    by apply snoc_ne.
  - unfold files_under. apply map_size_empty_iff, map_empty_filter.
    intros k i Hk [Hp Hr]. simpl in Hp, Hr.
    destruct (decide (k = parts d)) as [->|Hne].
    + destruct Hd as [m Hd]. rewrite Hd in Hk. by injection Hk as <-.
    + by rewrite He in Hk.
Qed.

(** Emptiness of a directory, checked on the list of the entries. *)
Lemma empty_dir_listed (fs : FS) (d : Path) (m : mode) :
  anchor d = "/" →
  namei MAXSYMLINKS fs [] (parts d) = inr (parts d) →
  fs !! parts d = Some (Dir m) →
  Forall (λ kv, ¬ parts d `prefix_of` kv.1 ∨ kv.1 = parts d) (map_to_list fs) →
  empty_dir fs d.
Proof.
  intros Ha Hn Hd Hall. split_and!; [done|done|by exists m|].
  intros k Hp Hk. destruct (fs !! k) as [i|] eqn:E; [|done].
  apply elem_of_map_to_list in E. rewrite Forall_forall in Hall.
  by destruct (Hall _ E).
Qed.

(** The bucket directory of a file: [mkdir] adds that directory at most,
    and returns only when it is there and can be entered. *)
Lemma mkdir_bucket_run p (P : list string) (e : string) w r w'
  (names : list string) (n : nat) :
  anchor p = "/" → parts p = P ++ [e] → e ≠ ".." →
  buckets_of (w_fs w) P names n →
  PathIO.mkdir p w = (r, w') →
  ERRORS w' = ERRORS w ∧ w_cwd w' = w_cwd w
  ∧ buckets_of (w_fs w') P names n
  ∧ (r = inr tt →
     w_fs w' !! (P ++ [e]) = Some (Dir rwx)
     ∧ ∃ dm, dir_mode (w_fs w') P = Some dm ∧ m_x dm = true).
Proof.
  intros Ha Hp He HI H.
  pose proof (mkdir_run _ _ _ _ H) as ((fs' & Hg & _) & _ & Hok).
  assert (PathIO.os_path w p = P ++ [e]) as Hos.
  { unfold PathIO.os_path. by rewrite Ha, Hp. }
  assert (PathIO.os_path w' p = P ++ [e]) as Hos'.
  { unfold PathIO.os_path. by rewrite Ha, Hp. }
  assert (ERRORS w' = ERRORS w ∧ w_cwd w' = w_cwd w ∧ w_fs w' = fs')
    as (E1 & E2 & E3).
  { rewrite Hg. simpl. by rewrite app_nil_r. }
  pose proof HI as (H1 & (m & H2) & H3 & H4).
  destruct (dir_mode_lookup _ _ _ H2) as [dm Hdm].
  assert (fs' = w_fs w
          ∨ (w_fs w !! (P ++ [e]) = None
             ∧ fs' = <[P ++ [e] := Dir rwx]> (w_fs w))) as Hcase.
  { rewrite <- E3. clear Hg Hok E1 E2 E3 Hos'.
    unfold PathIO.mkdir in H.
    apply bind_inv in H as [(e0 & H & ->)|([] & w1 & Hl & H)];
      [by apply log_call_run in H as [? _]|].
    apply log_call_run in Hl as [_ Hl].
    assert (w_fs w1 = w_fs w ∧ PathIO.os_path w1 p = P ++ [e]) as [F1 F2].
    { unfold PathIO.os_path. rewrite Ha, Hp, Hl. done. }
    rewrite <- F1.
    assert (∀ (h : exn → option (M unit)) r0 w0,
              (∀ e0, e0 ≠ FileNotFoundError →
                     h e0 = if is_OSError e0 then
                              Some (d ← PathIO.is_dir p;
                                    if d : bool then mret tt else raise e0)
                            else None) →
              try_except (PathIO.os_mkdir p) h w1 = (r0, w0) →
              w_fs w0 = w_fs w1
              ∨ (w_fs w1 !! (P ++ [e]) = None
                 ∧ w_fs w0 = <[P ++ [e] := Dir rwx]> (w_fs w1))) as Hone.
    { intros h r0 w0 Hh0 Ht.
      apply try_except_inv in Ht as [([] & Hb & _)|(e0 & w2 & Hb & Hh)].
      - unfold PathIO.os_mkdir in Hb. rewrite F2 in Hb.
        rewrite (mkdir_child _ _ _ dm) in Hb; [|by rewrite F1..|done].
        destruct (negb (m_x dm)); [done|].
        destruct (w_fs w1 !! (P ++ [e])) eqn:Ek; [done|].
        destruct (m_w dm); [|done]. unfold set_fs in Hb.
        injection Hb as <-. right. by simpl.
      - unfold PathIO.os_mkdir in Hb. rewrite F2 in Hb.
        rewrite (mkdir_child _ _ _ dm) in Hb; [|by rewrite F1..|done].
        assert (w2 = w1 ∧ e0 ≠ FileNotFoundError ∧ is_OSError e0 = true)
          as (-> & Hne & Hos1).
        { destruct (negb (m_x dm)); [by injection Hb as <- <-|].
          destruct (w_fs w1 !! (P ++ [e])); [by injection Hb as <- <-|].
          destruct (m_w dm); [done|]. by injection Hb as <- <-. }
        rewrite (Hh0 _ Hne), Hos1 in Hh.
        apply bind_inv in Hh as [(e1 & Hd & _)|(b & w3 & Hd & Hh)].
        + apply is_dir_run in Hd as (-> & _). by left.
        + apply is_dir_run in Hd as (-> & _).
          destruct b; injection Hh as _ <-; by left. }
    unfold PathIO.mkdir_parents in H.
    destruct (length (parts p)); fold PathIO.mkdir_parents in H;
      (apply Hone in H; [exact H|]); intros e0 Hne0;
      destruct (decide (e0 = FileNotFoundError)); congruence. }
  assert (buckets_of fs' P names n) as HI'.
  { destruct Hcase as [->|[Hk ->]]; [done|]. by apply buckets_insert_dir. }
  rewrite E3. split_and!; [done..|].
  intros Hr. specialize (Hok Hr).
  destruct HI' as (H1' & (m' & H2') & H3' & H4').
  destruct (dir_mode_lookup _ _ _ H2') as [dm' Hdm'].
  unfold PathIO.is_dir in Hok. rewrite Hos', E3 in Hok. unfold stat in Hok.
  assert (∀ i, fs' !! (P ++ [e]) = Some i → i = Dir rwx) as Hshape.
  { intros i Hi. destruct (H3' [e] i) as [(e' & _ & ->)|(? & ? & ? & _)];
      done. }
  rewrite (namei_child fs' P e dm') in Hok; [|done..|].
  2:{ intros t Ht. by apply Hshape in Ht. }
  destruct (negb (m_x dm')) eqn:Ex; [done|].
  destruct (fs' !! (P ++ [e])) as [i|] eqn:Ek; [|done].
  rewrite (Hshape i eq_refl). split; [done|].
  exists dm'. split; [done|]. by apply negb_false_iff.
Qed.

(** The copy of a file into its bucket, a directory of the destination
    that holds no file of that name: the file is created there. *)
Lemma copy2_bucket (fs fs' : FS) (s P : list string) (e nm : string)
  (names : list string) (n : nat) (dm : mode) :
  buckets_of fs P names n →
  fs !! (P ++ [e]) = Some (Dir rwx) →
  dir_mode fs P = Some dm → m_x dm = true →
  e ≠ ".." → nm ≠ ".." → nm ∉ names →
  Posix.copy2 fs s (P ++ [e; nm]) = inr fs' →
  fs !! (P ++ [e; nm]) = None
  ∧ ∃ m d t, fs' = <[P ++ [e; nm] := File m d t]> fs.
Proof.
  intros (H1 & H2 & H3 & H4) He Hdm Hx Hne Hnn Hnm Hc.
  assert (fs !! (P ++ [e; nm]) = None) as Hk.
  { destruct (fs !! (P ++ [e; nm])) as [i|] eqn:E; [|done].
    destruct (H3 [e; nm] i) as [(? & ? & _)|(e' & nm' & [= <- <-] & _ & Hin)];
      done. }
  split; [done|].
  assert (namei MAXSYMLINKS fs [] (P ++ [e]) = inr (P ++ [e])) as Hn1.
  { rewrite (namei_child fs P e dm); [|done..|by rewrite He].
    by rewrite Hx, He. }
  assert ((P ++ [e]) ++ [nm] = P ++ [e; nm]) as Eapp by by rewrite <- app_assoc.
  assert (namei MAXSYMLINKS fs [] (P ++ [e; nm]) = inl ENOENT) as Hn2.
  { rewrite <- Eapp. rewrite (namei_child fs (P ++ [e]) nm rwx);
      [|done|by apply dir_mode_child|done|by rewrite Eapp, Hk].
    by rewrite Eapp, Hk. }
  unfold Posix.copy2, isdir, stat in Hc. rewrite Hn2 in Hc.
  destruct (samefile fs s (P ++ [e; nm])); [done|].
  destruct (read_file fs s) as [?|[[m d] t]]; [done|].
  unfold write_target in Hc. rewrite Hn2 in Hc.
  destruct (P ++ [e; nm]) eqn:E; [by destruct P|]. rewrite <- E in *.
  rewrite <- Eapp in Hc.
  rewrite List.removelast_last, List.last_last, Hn1 in Hc.
  rewrite (dir_mode_child _ _ _ _ He) in Hc. simpl in Hc.
  rewrite Eapp, Hk in Hc. injection Hc as <-. by exists m, d, t.
Qed.

End BucketCopies.

(** One pass of the copy loop on a file with a new name: the destination
    gains one file and no warning, or one warning and no file. *)
Lemma copy_one_bucket dst f w r w' (names : list string) (n : nat) :
  anchor dst = "/" →
  buckets_of (w_fs w) (parts dst) names n →
  entry_name (PurePath.name f) → PurePath.name f ∉ names →
  copy_one dst f w = (r, w') →
  (ERRORS w' = ERRORS w
   ∧ buckets_of (w_fs w') (parts dst) (PurePath.name f :: names) (S n))
  ∨ (∃ msg, ERRORS w' = ERRORS w ++ [msg]
            ∧ buckets_of (w_fs w') (parts dst) (PurePath.name f :: names) n).
Proof.
  intros Ha HI Hnm Hnew H.
  destruct (bucket_name f) as [Hb1 Hb2].
  pose proof (lacks_dot_entry_name _ Hb1 Hb2) as Hb.
  unfold copy_one in H. fold (target_dir dst f) in H.
  fold (target_file dst f) in H.
  assert (target_dir dst f
          = mkPath "/" (parts dst ++ [get_extension_subdir f])) as Etd.
  { unfold target_dir. rewrite (truediv_entry _ _ Hb). by rewrite Ha. }
  assert (target_file dst f
          = mkPath "/" (parts dst ++ [get_extension_subdir f; PurePath.name f]))
    as Etf.
  { unfold target_file. rewrite (truediv_entry _ _ Hnm), Etd. simpl.
    by rewrite <- app_assoc. }
  set (e := get_extension_subdir f) in *.
  assert (∀ rm wm, PathIO.mkdir (target_dir dst f) w = (rm, wm) →
            ERRORS wm = ERRORS w ∧ w_cwd wm = w_cwd w
            ∧ buckets_of (w_fs wm) (parts dst) names n
            ∧ (rm = inr tt →
               w_fs wm !! (parts dst ++ [e]) = Some (Posix.Dir Posix.rwx)
               ∧ ∃ dm, Posix.dir_mode (w_fs wm) (parts dst) = Some dm
                       ∧ Posix.m_x dm = true)) as Hmk.
  { intros rm wm Hm.
    apply (mkdir_bucket_run (target_dir dst f) (parts dst) e w rm wm);
      [by rewrite Etd|by rewrite Etd|by destruct Hb as (_ & _ & ?)|done|done]. }
  apply try_except_inv in H as [([] & H & ->)|(e0 & w1 & H & Hh)].
  - left.
    apply bind_inv in H as [(? & _ & ?)|([] & wm & Hm & H)]; [done|].
    destruct (Hmk _ _ Hm) as (E1 & E2 & HIm & Hok).
    destruct (Hok eq_refl) as (Hbk & dm & Hdm & Hx).
    apply copy2_run in H as [(? & ? & _)|(fs' & _ & Hg & Hc)]; [done|].
    assert (PathIO.os_path wm (target_file dst f)
            = parts dst ++ [e; PurePath.name f]) as Eos by by rewrite Etf.
    rewrite Eos in Hc.
    apply (copy2_bucket _ _ _ _ _ _ names n dm) in Hc
      as (Hk & m & d & t & ->);
      [|done|done|done|done|by destruct Hb as (_ & _ & ?)
       |by destruct Hnm as (_ & _ & ?)|done].
    rewrite Hg. simpl. rewrite app_nil_r. split; [done|].
    by apply buckets_insert_file.
  - right.
    assert (is_OSError e0 = true ∧ ERRORS w1 = ERRORS w
            ∧ buckets_of (w_fs w1) (parts dst) names n) as (He0 & E1 & HI1).
    { apply bind_inv in H as [(e' & Hm & [= <-])|([] & wm & Hm & H)].
      - pose proof (mkdir_run _ _ _ _ Hm) as (_ & Ho & _).
        destruct (Hmk _ _ Hm) as (E1 & _ & HIm & _).
        split_and!; [by apply Ho|done|done].
      - destruct (Hmk _ _ Hm) as (E1 & _ & HIm & _).
        apply copy2_run in H as [(e' & [= <-] & He' & Hg)|(? & ? & _)]; [|done].
        rewrite Hg. simpl. rewrite app_nil_r. done. }
    assert (∃ msg, warn msg w1 = (r, w')) as [msg Hw].
    { destruct (decide (e0 = PermissionError)); [by eexists|].
      destruct (decide (e0 = FileNotFoundError)); [by eexists|].
      rewrite He0 in Hh. by eexists. }
    apply warn_run in Hw as [_ Hw]. exists msg. rewrite Hw. simpl.
    rewrite E1. split; [done|]. by apply buckets_more_names.
Qed.

Lemma copy_loop_buckets dst total delay files :
  ∀ i w r w' (names : list string) (n : nat),
  total ≠ 0%nat → anchor dst = "/" →
  buckets_of (w_fs w) (parts dst) names n →
  Forall entry_name (map PurePath.name files) →
  NoDup (map PurePath.name files) →
  (∀ x, x ∈ map PurePath.name files → x ∉ names) →
  copy_loop dst total delay i files w = (r, w') →
  ∃ errs names',
    ERRORS w' = ERRORS w ++ errs
    ∧ (length errs ≤ length files)%nat
    ∧ buckets_of (w_fs w') (parts dst) names'
        (n + length files - length errs).
Proof.
  induction files as [|f rest IH];
    intros i w r w' names n Ht Ha HI Hnm Hnd Hnew H; simpl in H.
  - injection H as _ <-. exists [], names. rewrite app_nil_r. simpl.
    split_and!; [done|lia|]. by replace (n + 0 - 0)%nat with n by lia.
  - simpl in Hnm, Hnd. apply Forall_cons in Hnm as [Hf Hnm].
    apply NoDup_cons in Hnd as [Hfr Hnd].
    apply bind_inv in H as [(e & H & ->)|([] & w1 & H1 & H)];
      [by apply copy_one_run in H as [? _]|].
    apply bind_inv in H as [(e & H & ->)|([] & w2 & H2 & H)];
      [by apply print_progress_bar_run in H as [? _]|].
    apply print_progress_bar_run in H2 as [_ Hg2]; [|done].
    apply bind_inv in H as [(e & H & ->)|([] & w3 & H3 & H)];
      [by apply print_run in H as [? _]|].
    apply print_run in H3 as [_ Hg3].
    assert (w_fs w3 = w_fs w1 ∧ ERRORS w3 = ERRORS w1) as [F1 F2].
    { rewrite Hg3, Hg2. simpl. by rewrite !app_nil_r. }
    assert (∀ x, x ∈ map PurePath.name rest → x ∉ PurePath.name f :: names)
      as Hnew'.
    { intros x Hx [->|Hin]%elem_of_cons; [done|].
      apply (Hnew x); [by right|done]. }
    assert (PurePath.name f ∉ names) as Hfn.
    { apply Hnew. by left. }
    destruct (copy_one_bucket dst f w (inr tt) w1 names n Ha HI Hf Hfn H1)
      as [[E HI1]|(msg & E & HI1)].
    + rewrite <- F1 in HI1.
      destruct (IH (S i) w3 r w' _ _ Ht Ha HI1 Hnm Hnd Hnew' H)
        as (errs & names' & E' & Hle & HI').
      exists errs, names'. rewrite E', F2, E. simpl.
      split_and!; [done|lia|].
      by replace (n + S (length rest) - length errs)%nat
        with (S n + length rest - length errs)%nat by lia.
    + rewrite <- F1 in HI1.
      destruct (IH (S i) w3 r w' _ _ Ht Ha HI1 Hnm Hnd Hnew' H)
        as (errs & names' & E' & Hle & HI').
      exists (msg :: errs), names'. rewrite E', F2, E, <- app_assoc. simpl.
      split_and!; [done|lia|].
      by replace (n + S (length rest) - S (length errs))%nat
        with (n + length rest - length errs)%nat by lia.
Qed.



